(** * Multivariate Student's T distribution (gonum, stat/distmv/studentst.go)

    A shallow embedding of [NewStudentsT], [ConditionStudentsT],
    [studentsTConditional], [findUnob], [CovarianceMatrix], [LogProb],
    [MarginalStudentsT] and [Rand], over IEEE-754 binary64 values, with the
    collaborators of the file (the Cholesky engine of package mat, Go's
    math.Log and math.Lgamma, the random sources) kept behind interfaces. *)

From Stdlib Require Import ZArith List Bool Lia SpecFloat.
From stdpp Require Import base list gmap sorting.
Import ListNotations.

(** ** float64 *)

Module F64.

Definition float64 : Type := spec_float.

Definition prec : Z := 53.
Definition emax : Z := 1024.

Definition add : float64 -> float64 -> float64 := SFadd prec emax.
Definition sub : float64 -> float64 -> float64 := SFsub prec emax.
Definition mul : float64 -> float64 -> float64 := SFmul prec emax.
Definition div : float64 -> float64 -> float64 := SFdiv prec emax.
Definition Sqrt : float64 -> float64 := SFsqrt prec emax.
Definition leb : float64 -> float64 -> bool := SFleb.
Definition ltb : float64 -> float64 -> bool := SFltb.

(** The conversion [float64(i)] of a Go int. *)
Definition of_int (i : Z) : float64 := binary_normalize prec emax i 0 false.

Definition zero : float64 := S754_zero false.
Definition one : float64 := Eval vm_compute in of_int 1.
Definition two : float64 := Eval vm_compute in of_int 2.
Definition half : float64 := Eval vm_compute in div (of_int 1) (of_int 2).

(** math.Pi, 0x400921FB54442D18. *)
Definition Pi : float64 := S754_finite false 7074237752028440 (-51).

Definition NaN : float64 := S754_nan.
Definition PosInf : float64 := S754_infinity false.
Definition NegInf : float64 := S754_infinity true.

(** math.Inf(sign) and math.IsInf(f, sign). *)
Definition Inf (sign : Z) : float64 :=
  if (0 <=? sign)%Z then PosInf else NegInf.

Definition IsInf (f : float64) (sign : Z) : bool :=
  match f with
  | S754_infinity s =>
      if (0 <? sign)%Z then negb s else if (sign <? 0)%Z then s else true
  | _ => false
  end.

Definition IsNaN (f : float64) : bool :=
  match f with S754_nan => true | _ => false end.

(** A finite value: neither an infinity nor a NaN. *)
Definition is_finite (f : float64) : bool :=
  match f with
  | S754_zero _ | S754_finite _ _ _ => true
  | _ => false
  end.

End F64.

Import F64.

Declare Scope f64_scope.
Delimit Scope f64_scope with F.
Bind Scope f64_scope with float64.
Infix "+" := add : f64_scope.
Infix "-" := sub : f64_scope.
Infix "*" := mul : f64_scope.
Infix "/" := div : f64_scope.

(** ** Panics and results

    A Go call either panics or returns; a returned [(dist, ok)] pair with
    [ok = false] is [Ret None]. *)

Inductive panic : Set :=
  | badZeroDimension          (* "distmv: zero dimension" *)
  | badSizeMismatch           (* "distmv: size mismatch" *)
  | badInputLength            (* "distmv: input slice length mismatch" *)
  | badOutputLength           (* reuseAs on a slice of the wrong length *)
  | noObservedValue           (* "studentst: no observed value" *)
  | observedOutOfBounds       (* "studentst: observed value out of bounds" *)
  | allDimensionsObserved     (* "stat: all dimensions observed" *)
  | inputMatrixSizeMismatch   (* "studentst: input matrix size mismatch" *)
  | indexOutOfRange           (* run-time panic of an index expression *)
  | nilDereference.           (* run-time panic of a nil or ill-typed reference *)

Inductive result (A : Type) : Type :=
  | Ret (a : A)
  | Panic (p : panic).

Arguments Ret {A} a.
Arguments Panic {A} p.

Definition rbind {A B} (r : result A) (k : A -> result B) : result B :=
  match r with
  | Ret a => k a
  | Panic p => Panic p
  end.

Notation "x <- r ;; k" := (rbind r (fun x => k))
  (at level 100, r at next level, right associativity).

Definition panics {A} (r : result A) : Prop :=
  match r with Panic _ => True | Ret _ => False end.

Fixpoint rmapM {A B} (f : A -> result B) (l : list A) : result (list B) :=
  match l with
  | [] => Ret []
  | x :: l' => y <- f x ;; ys <- rmapM f l' ;; Ret (y :: ys)
  end.

(** ** Slices *)

(** [make([]float64, n)] *)
Definition make (n : nat) : list float64 := repeat zero n.

(** The built-in [copy(dst, src)]: the first [min (len dst) (len src)]
    elements of [dst] are overwritten. *)
Definition copy (dst src : list float64) : list float64 :=
  take (length dst) src ++ drop (length src) dst.

(** The index expression [l[i]] for a Go int [i]. *)
Definition index {A} (l : list A) (i : Z) : result A :=
  if (i <? 0)%Z then Panic indexOutOfRange
  else match l !! Z.to_nat i with
       | Some x => Ret x
       | None => Panic indexOutOfRange
       end.

Definition in_range (n : nat) (i : Z) : bool :=
  (0 <=? i)%Z && (i <? Z.of_nat n)%Z.

(** ** Vectors and matrices of package mat

    Modelled from the spec: the vector and matrix arithmetic primitive (dot
    products, scaled addition, sub-matrix extraction by index list) is a
    collaborator of the file; its operations are written out here on
    row-major lists. *)

Definition Vec : Type := list float64.
Definition Dense : Type := list (list float64).

Definition Dot (x y : Vec) : float64 :=
  fold_left (fun acc p => (acc + fst p * snd p)%F) (zip x y) zero.

Definition at2 (m : Dense) (i j : nat) : float64 :=
  nth j (nth i m []) zero.

Definition tabulate {A} (n : nat) (f : nat -> A) : list A := map f (seq 0 n).

Definition transpose (r c : nat) (m : Dense) : Dense :=
  tabulate c (fun j => tabulate r (fun i => at2 m i j)).

Definition column (r : nat) (m : Dense) (j : nat) : Vec :=
  tabulate r (fun i => at2 m i j).

(** [MulVec]: matrix times vector, one row at a time. *)
Definition MulVec (m : Dense) (x : Vec) : Vec := map (fun row => Dot row x) m.

(** [Mul]: an [r x k] matrix times a [k x c] matrix. *)
Definition Mul (k c : nat) (a b : Dense) : Dense :=
  map (fun row => tabulate c (fun j => Dot row (column k b j))) a.

(** [floats.AddScaledTo(dst, y, alpha, s)]: [dst[i] = y[i] + alpha*s[i]]. *)
Definition AddScaledTo (y : Vec) (alpha : float64) (s : Vec) : Vec :=
  zip_with (fun yi si => (yi + alpha * si)%F) y s.

(** [mat.SymDense]: only the upper triangle is stored and read, so that
    [At i j] and [At j i] are the same cell. *)
Record SymDense : Type := mkSym { symN : nat; symData : Dense }.

Definition SymmetricDim (a : SymDense) : nat := symN a.

Definition At (a : SymDense) (i j : nat) : float64 :=
  if (i <=? j)%nat then at2 (symData a) i j else at2 (symData a) j i.

(** A symmetric matrix given by the entries of its upper triangle. *)
Definition symOf (n : nat) (f : nat -> nat -> float64) : SymDense :=
  mkSym n (tabulate n (fun i => tabulate n (fun j =>
            if (i <=? j)%nat then f i j else f j i))).

(** [mat.NewSymDense(n, nil)] *)
Definition NewSymDense (n : nat) : SymDense := symOf n (fun _ _ => zero).

Definition IsEmpty (a : SymDense) : bool := (symN a =? 0)%nat.

(** [dst.GrowSym(n)] on an empty receiver. *)
Definition GrowSym (a : SymDense) (n : nat) : SymDense :=
  symOf (symN a + n) (At a).

(** [dst.CopySym(a)]: the leading [min (dim a) (dim dst)] block of [dst]
    becomes that of [a]. *)
Definition CopySym (dst a : SymDense) : SymDense :=
  let n := Nat.min (symN a) (symN dst) in
  symOf (symN dst) (fun i j => if (j <? n)%nat then At a i j else At dst i j).

(** [dst.ScaleSym(f, a)] *)
Definition ScaleSym (f : float64) (a : SymDense) : SymDense :=
  symOf (symN a) (fun i j => (f * At a i j)%F).

(** [dst.SubsetSym(a, set)]: entry [(i, j)] is [a.At(set[i], set[j])]; an
    index outside the matrix is a run-time panic. *)
Definition SubsetSym (a : SymDense) (set : list Z) : result SymDense :=
  if forallb (in_range (symN a)) set
  then Ret (symOf (length set) (fun i j =>
              At a (Z.to_nat (nth i set 0%Z)) (Z.to_nat (nth j set 0%Z))))
  else Panic indexOutOfRange.

(** The product of a lower-triangular matrix and a vector: row [i] reads
    its first [i + 1] entries only. *)
Definition MulVecLower (l : Dense) (x : Vec) : Vec :=
  imap (fun i row => Dot (take (S i) row) x) l.

(** The identity matrix, as a symmetric matrix. *)
Definition eye (n : nat) : SymDense :=
  symOf n (fun i j => if (i =? j)%nat then one else zero).

(** A matrix is well formed when it has [n] rows of [n] entries, mirrored
    across the diagonal: reading it through [At] gives it back. *)
Definition SymWF (a : SymDense) : Prop := symOf (symN a) (At a) = a.

(** ** Collaborators *)

(** Go's math.Log, math.Exp and math.Lgamma (the first result of Lgamma). *)
Class MathLib : Type := {
  Log : float64 -> float64;
  Exp : float64 -> float64;
  Lgamma : float64 -> float64;
}.

(** Modelled from the spec: the Factorization Engine, [mat.Cholesky].
    [Factorize] gives no factorization when the matrix is not positive
    definite; the two solves give no result when they return an error. *)
Class Engine (Cholesky : Type) : Type := {
  Factorize : SymDense -> option Cholesky;
  LTo : Cholesky -> Dense;
  LogDet : Cholesky -> float64;
  SolveVecTo : Cholesky -> Vec -> option Vec;
  SolveTo : Cholesky -> Dense -> option Dense;
}.

(** Modelled from the spec: the random-variate source.  [RandState] is the
    state of the process default generator and of every bound source; a
    draw from [None] uses the process default. *)
Class RandSource (Source RandState : Type) : Type := {
  NormFloat64 : option Source -> RandState -> float64 * RandState;
  ChiSquaredRand : float64 -> option Source -> RandState -> float64 * RandState;
}.

(** Modelled from the spec: [stat.Mahalanobis], the distance
    [sqrt((x-y)' S^-1 (x-y))] by a solve against the factor; NaN when the
    solve returns an error. *)
Definition Mahalanobis {Cholesky} `{Engine Cholesky} (x y : Vec) (chol : Cholesky) : float64 :=
  let diff := zip_with sub x y in
  match SolveVecTo chol diff with
  | Some tmp => Sqrt (Dot tmp diff)
  | None => NaN
  end.

(** [reuseAs(dst, n)] *)
Definition reuseAs (dst : option Vec) (n : nat) : result Vec :=
  match dst with
  | None => Ret (make n)
  | Some d => if (length d =? n)%nat then Ret d else Panic badOutputLength
  end.

(** ** The distribution *)

Section StudentsT.

Context {Cholesky Source RandState : Type}.
Context `{ML : MathLib} `{E : Engine Cholesky}
        `{RS : RandSource Source RandState}.

Record StudentsT : Type := mkStudentsT {
  nu : float64;
  mu : Vec;
  src : option Source;
  rnd : option Source;
  sigma : SymDense;
  chol : Cholesky;
  lower : Dense;
  logSqrtDet : float64;
  dim : nat;
}.

Definition NewStudentsT (mu : Vec) (sigma : SymDense) (nu : float64)
    (src : option Source) : result (option StudentsT) :=
  if (length mu =? 0)%nat then Panic badZeroDimension else
  let dim := SymmetricDim sigma in
  if negb (dim =? length mu)%nat then Panic badSizeMismatch else
  let s_mu := copy (make dim) mu in
  match Factorize sigma with
  | None => Ret None
  | Some c =>
      Ret (Some {| nu := nu; mu := s_mu; src := src; rnd := src;
                   sigma := CopySym (NewSymDense dim) sigma;
                   chol := c; lower := LTo c;
                   logSqrtDet := (half * LogDet c)%F; dim := dim |})
  end.

(** [intsets.Sparse] is a finite set of ints. *)
Definition findUnob (observed : list Z) (dim : nat) : list Z :=
  let setOb : gset Z := list_to_set observed in
  let setAll : gset Z := list_to_set (Z.of_nat <$> seq 0 dim) in
  let setUnob : gset Z := setAll ∖ setOb in
  merge_sort Z.le (elements setUnob).

Definition studentsTConditional (observed : list Z) (values : Vec)
    (nu : float64) (mu : Vec) (sigma : SymDense)
    : result (float64 * option (Vec * SymDense)) :=
  let dim := length mu in
  let ob := length observed in
  let unobserved := findUnob observed dim in
  let unob := length unobserved in
  if (unob =? 0)%nat then Panic allDimensionsObserved else
  mu1 <- rmapM (index mu) unobserved ;;
  mu2 <- rmapM (fun iv => x <- index values (Z.of_nat (fst iv)) ;;
                          m <- index mu (snd iv) ;;
                          Ret (x - m)%F)
               (zip (seq 0 ob) observed) ;;
  sigma11 <- SubsetSym sigma unobserved ;;
  sigma22 <- SubsetSym sigma observed ;;
  let sigma21 : Dense :=
    map (fun r => map (fun c => At sigma (Z.to_nat r) (Z.to_nat c))
                      unobserved) observed in
  match Factorize sigma22 with
  | None => Ret (NaN, None)
  | Some chol =>
      match SolveVecTo chol mu2 with
      | None => Ret (NaN, None)
      | Some tmp =>
          let tmp2 := MulVec (transpose ob unob sigma21) tmp in
          let mu1 := zip_with add mu1 tmp2 in
          match SolveTo chol sigma21 with
          | None => Ret (NaN, None)
          | Some tmp3 =>
              let tmp4 := Mul ob unob (transpose ob unob sigma21) tmp3 in
              let sigma11 :=
                symOf unob (fun i j => (At sigma11 i j - at2 tmp4 i j)%F) in
              if IsInf nu 1 then Ret (nu, Some (mu1, sigma11)) else
              let beta := Dot mu2 tmp in
              let sigma11 :=
                ScaleSym ((nu + beta) / (nu + of_int (Z.of_nat ob)))%F
                         sigma11 in
              Ret ((nu + of_int (Z.of_nat ob))%F, Some (mu1, sigma11))
          end
      end
  end.

Definition ConditionStudentsT (s : StudentsT) (observed : list Z)
    (values : Vec) (src : option Source) : result (option StudentsT) :=
  if (length observed =? 0)%nat then Panic noObservedValue else
  if negb (length observed =? length values)%nat then Panic badInputLength
  else
  if negb (forallb (in_range (dim s)) observed)
  then Panic observedOutOfBounds else
  r <- studentsTConditional observed values (nu s) (mu s) (sigma s) ;;
  match r with
  | (_, None) => Ret None
  | (newNu, Some (newMean, newSigma)) =>
      NewStudentsT newMean newSigma newNu src
  end.

Definition CovarianceMatrix (st : StudentsT) (dst : SymDense)
    : result SymDense :=
  dst <- (if IsEmpty dst then Ret (GrowSym dst (dim st))
          else if negb (SymmetricDim dst =? dim st)%nat
               then Panic inputMatrixSizeMismatch
               else Ret dst) ;;
  let dst := CopySym dst (sigma st) in
  Ret (ScaleSym (nu st / (nu st - two))%F dst).

Definition Dim (s : StudentsT) : nat := dim s.

Definition LogProb (s : StudentsT) (y : Vec) : result float64 :=
  if negb (length y =? dim s)%nat then Panic badInputLength else
  let nu := nu s in
  let n := of_int (Z.of_nat (dim s)) in
  let lg1 := Lgamma ((nu + n) / two)%F in
  let lg2 := Lgamma (nu / two)%F in
  let t1 := (lg1 - lg2 - n / two * Log (nu * Pi) - logSqrtDet s)%F in
  let mahal := Mahalanobis y (mu s) (chol s) in
  let mahal := (mahal * mahal)%F in
  Ret (t1 - ((nu + n) / two) * Log (one + mahal / nu))%F.

Definition MarginalStudentsT (s : StudentsT) (vars : list Z)
    (src : option Source) : result (option StudentsT) :=
  newMean <- rmapM (index (mu s)) vars ;;
  newSigma <- SubsetSym (sigma s) vars ;;
  NewStudentsT newMean newSigma (nu s) src.

Definition Mean (s : StudentsT) (dst : option Vec) : result Vec :=
  dst <- reuseAs dst (dim s) ;;
  Ret (copy dst (mu s)).

Definition Nu (s : StudentsT) : float64 := nu s.

Definition Prob (s : StudentsT) (y : Vec) : result float64 :=
  p <- LogProb s y ;; Ret (Exp p).

(** The loop [for i := range dst { dst[i] = NormFloat64() }]. *)
Fixpoint drawNormals (r : option Source) (n : nat) (rs : RandState)
    : Vec * RandState :=
  match n with
  | O => ([], rs)
  | S n' =>
      let (z, rs1) := NormFloat64 r rs in
      let (zs, rs2) := drawNormals r n' rs1 in
      (z :: zs, rs2)
  end.

Definition Rand (s : StudentsT) (dst : option Vec) (rs : RandState)
    : result (Vec * RandState) :=
  dst <- reuseAs dst (dim s) ;;
  let (z, rs1) := drawNormals (rnd s) (length dst) rs in
  let y := MulVecLower (lower s) z in
  let (u, rs2) := ChiSquaredRand (nu s) (src s) rs1 in
  Ret (AddScaledTo (mu s) (Sqrt (nu s / u)) y, rs2).

End StudentsT.

Arguments StudentsT : clear implicits.

(** ** A reference instance of the collaborators

    The general theorems below hold for every engine, math library and
    random source.  To run the definitions on concrete inputs, the engine is
    instantiated by the textbook Cholesky algorithm, the math library by the
    table of its documented values, and the random source by a script. *)

Module Reference.

(** Modelled from the spec: the Factorization Engine computes a Cholesky
    decomposition of a symmetric matrix or reports failure, supports
    solves against the factor, and gives its log-determinant and its
    lower-triangular factor.  Row [i] of the factor has [i + 1] entries. *)

Fixpoint rowPrefix (a : SymDense) (i : nat) (acc : Vec) (rows : Dense) : Vec :=
  match rows with
  | [] => acc
  | lj :: rest =>
      let j := length acc in
      rowPrefix a i (acc ++ [((At a j i - Dot acc lj) / nth j lj zero)%F]) rest
  end.

Definition cholStep (a : SymDense) (l : option Dense) (i : nat) : option Dense :=
  match l with
  | None => None
  | Some rows =>
      let p := rowPrefix a i [] rows in
      let ajj := (At a i i - Dot p p)%F in
      if leb ajj zero || IsNaN ajj then None
      else Some (rows ++ [p ++ [Sqrt ajj]])
  end.

Definition factorize (a : SymDense) : option Dense :=
  fold_left (cholStep a) (seq 0 (symN a)) (Some []).

Definition lTo (c : Dense) : Dense :=
  map (fun row => row ++ repeat zero (length c - length row)) c.

Definition logDet `{MathLib} (c : Dense) : float64 :=
  fold_left (fun det row => (det + two * Log (List.last row zero))%F) c zero.

Fixpoint forward (l : Dense) (b : Vec) (y : Vec) : Vec :=
  match l, b with
  | row :: l', bi :: b' =>
      forward l' b' (y ++ [((bi - Dot y row) / nth (length y) row zero)%F])
  | _, _ => y
  end.

Fixpoint backward (u : Dense) (y : Vec) (i : nat) : Vec :=
  match u, y with
  | row :: u', yi :: y' =>
      let x := backward u' y' (S i) in
      ((yi - Dot (drop (S i) row) x) / nth i row zero)%F :: x
  | _, _ => []
  end.

Definition solveVec (c : Dense) (b : Vec) : Vec :=
  let n := length c in
  backward (transpose n n (lTo c)) (forward c b []) 0.

Definition solve (c : Dense) (b : Dense) : Dense :=
  let n := length c in
  let k := length (nth 0 b []) in
  transpose k n (tabulate k (fun j => solveVec c (column n b j))).

#[local] Instance engine `{MathLib} : Engine Dense := {|
  Factorize := factorize;
  LTo := lTo;
  LogDet := logDet;
  SolveVecTo c b := Some (solveVec c b);
  SolveTo c b := Some (solve c b);
|}.

(** math.Log, math.Exp and math.Lgamma at the arguments where their
    result is documented, with [Log 1 = 0] and [Exp 0 = 1]; any other
    argument is left at NaN. *)
Definition tableLog (x : float64) : float64 :=
  match x with
  | S754_nan => NaN
  | S754_infinity false => PosInf
  | S754_infinity true => NaN
  | S754_zero _ => NegInf
  | S754_finite true _ _ => NaN
  | S754_finite false m e =>
      if ((m =? 4503599627370496)%positive && (e =? -52)%Z)%bool
      then zero else NaN
  end.

Definition tableLgamma (x : float64) : float64 :=
  match x with
  | S754_nan => NaN
  | S754_infinity false => PosInf
  | S754_infinity true => NegInf
  | S754_zero _ => PosInf
  | S754_finite _ _ _ => NaN
  end.

Definition tableExp (x : float64) : float64 :=
  match x with
  | S754_nan => NaN
  | S754_infinity false => PosInf
  | S754_infinity true => zero
  | S754_zero _ => one
  | S754_finite _ _ _ => NaN
  end.

#[local] Instance math : MathLib :=
  {| Log := tableLog; Exp := tableExp; Lgamma := tableLgamma |}.

(** A scripted random source: every draw takes the next value of a list. *)
Definition next (rs : list float64) : float64 * list float64 :=
  match rs with
  | [] => (zero, [])
  | z :: rs' => (z, rs')
  end.

#[local] Instance script : RandSource unit (list float64) := {|
  NormFloat64 _ rs := next rs;
  ChiSquaredRand _ _ rs := next rs;
|}.

End Reference.

(** * Properties, scenarios and the store

    The properties the functions are checked against, the concrete
    distributions they are run on, and the functions once more over a store
    of references. *)

(** ** The builder *)


(** What a successful build stores. *)
Definition built {Cholesky Source : Type} `{E : Engine Cholesky}
    (mu0 : Vec) (sigma0 : SymDense) (nu0 : float64)
    (src0 : option Source) (c : Cholesky) : StudentsT Cholesky Source :=
  {| nu := nu0; mu := mu0; src := src0; rnd := src0;
     sigma := symOf (symN sigma0) (At sigma0);
     chol := c; lower := LTo c;
     logSqrtDet := (half * LogDet c)%F; dim := length mu0 |}.

(** ** Signs of binary64 results *)

(** NaN, a zero, or a value of sign [s] ([true] is negative). *)
Definition sign_or_nan (s : bool) (x : float64) : Prop :=
match x with
| S754_nan | S754_zero _ => True
| S754_infinity s' | S754_finite s' _ _ => s' = s
end.


(** ** Concrete scenarios *)

(** The reference collaborators, by name. *)
Definition refEngine : Engine Dense := @Reference.engine Reference.math.
Definition five : float64 := Eval vm_compute in of_int 5.

(** The distribution of the concrete scenarios: [mu = [0, 0]], the identity
    scale and [nu = 5], as the reference engine builds it. *)
Definition scenario : StudentsT Dense unit :=
  built (E:=refEngine) [zero; zero] (eye 2) five None [[one]; [zero; one]].

(** The one-dimensional standard distribution at the Gaussian limit. *)
Definition gaussian1 : StudentsT Dense unit :=
  built (E:=refEngine) [zero] (eye 1) PosInf None [[one]].

(** ** Conditioning: the blocks of the partition

    The algorithm in the words of the spec: [pick] and [subSym] extract the
    sub-vector and the sub-matrix of a list of indices, [block] the
    rectangular block of the observed rows and unobserved columns. *)

Definition pick (mu : Vec) (idx : list Z) : Vec :=
  map (fun i => nth (Z.to_nat i) mu zero) idx.

Definition subSym (sigma : SymDense) (idx : list Z) : SymDense :=
  symOf (length idx) (fun i j =>
    At sigma (Z.to_nat (nth i idx 0%Z)) (Z.to_nat (nth j idx 0%Z))).

Definition block (sigma : SymDense) (rows cols : list Z) : Dense :=
  map (fun r => map (fun c => At sigma (Z.to_nat r) (Z.to_nat c)) cols) rows.

(** The pieces of section 4.4 of the spec, for a location [mu], a scale
    [sigma] and observations [values] of the coordinates [observed]:
    [d = values - mu2]; with [t] the solution of [S22 t = d] and [tm] that
    of [S22 tm = S21], the mean [mu1 + S21' t] and the Schur complement
    [S11 - S21' tm], scaled by [(nu + d.t) / (nu + k)]. *)

Definition condDiff (mu : Vec) (observed : list Z) (values : Vec) : Vec :=
  zip_with sub values (pick mu observed).

Definition condBlock (mu : Vec) (sigma : SymDense) (observed : list Z) : Dense :=
  block sigma observed (findUnob observed (length mu)).

Definition condMean (mu : Vec) (sigma : SymDense) (observed : list Z)
    (t : Vec) : Vec :=
  let unobserved := findUnob observed (length mu) in
  let s21t :=
    transpose (length observed) (length unobserved)
              (condBlock mu sigma observed) in
  zip_with add (pick mu unobserved) (MulVec s21t t).

Definition condSchur (mu : Vec) (sigma : SymDense) (observed : list Z)
    (tm : Dense) : SymDense :=
  let unobserved := findUnob observed (length mu) in
  let k := length observed in
  let u := length unobserved in
  let s21t := transpose k u (condBlock mu sigma observed) in
  symOf u (fun i j => (At (subSym sigma unobserved) i j
                       - at2 (Mul k u s21t tm) i j)%F).

Definition condScale (nu : float64) (mu : Vec) (sigma : SymDense)
    (observed : list Z) (values t : Vec) (tm : Dense) : SymDense :=
  let k := of_int (Z.of_nat (length observed)) in
  let beta := Dot (condDiff mu observed values) t in
  ScaleSym ((nu + beta) / (nu + k))%F (condSchur mu sigma observed tm).

(** The conditional parameters as the spec computes them: no parameters
    when the factorization of [S22] or a solve fails, the unscaled Schur
    complement at the Gaussian limit, and [nu + k] with the scaled one
    otherwise. *)
Definition conditionalParams {Cholesky : Type} `{E : Engine Cholesky}
    (observed : list Z) (values : Vec)
    (nu : float64) (mu : Vec) (sigma : SymDense)
    : float64 * option (Vec * SymDense) :=
  match Factorize (subSym sigma observed) with
  | None => (NaN, None)
  | Some c =>
      match SolveVecTo c (condDiff mu observed values),
            SolveTo c (condBlock mu sigma observed) with
      | Some t, Some tm =>
          if IsInf nu 1
          then (nu, Some (condMean mu sigma observed t,
                          condSchur mu sigma observed tm))
          else ((nu + of_int (Z.of_nat (length observed)))%F,
                Some (condMean mu sigma observed t,
                      condScale nu mu sigma observed values t tm))
      | _, _ => (NaN, None)
      end
  end.

(** ** The density *)

(** The density in the words of the spec: the squared Mahalanobis distance
    by a solve against the cached factor, and the closed formula. *)
Definition sqMahalanobis {Cholesky : Type} `{E : Engine Cholesky}
    (c : Cholesky) (mu y : Vec) : float64 :=
  let m := Mahalanobis y mu c in (m * m)%F.

Definition logDensity `{ML : MathLib} (nu : float64) (n : nat)
    (logHalfDeterminant m2 : float64) : float64 :=
  let nf := of_int (Z.of_nat n) in
  (Lgamma ((nu + nf) / two) - Lgamma (nu / two) - nf / two * Log (nu * Pi)
   - logHalfDeterminant - (nu + nf) / two * Log (one + m2 / nu))%F.

Definition f3_5 : float64 := Eval vm_compute in (of_int 7 / two)%F.
Definition f2_5 : float64 := Eval vm_compute in (five / two)%F.

(** The scenario distribution over an arbitrary math library. *)
Definition scenarioWith (ML : MathLib) : StudentsT Dense unit :=
  built (E:=@Reference.engine ML) [zero; zero] (eye 2) five None
        [[one]; [zero; one]].

(** ** The store: references, aliasing and in-place updates

    The same functions once more, with the slices and matrices behind
    references.  A location is the index of a cell of the store; [make],
    [mat.NewSymDense] and the receivers of [SubsetSym], [Factorize] and
    [LTo] allocate a new cell, an element assignment or an in-place matrix
    operation overwrites the cell of its receiver. *)

(** A location is the index of a cell. *)
Abbreviation loc := nat.

Section Store.

Context {Cholesky Source RandState : Type}.
Context `{ML : MathLib} `{E : Engine Cholesky}
        `{RS : RandSource Source RandState}.

(** The struct [StudentsT]: the vector and the matrices are references. *)
Record StudentsTRef : Type := mkRef {
  r_nu : float64;
  r_mu : option loc;
  r_src : option Source;
  r_rnd : option Source;
  r_sigma : option loc;
  r_chol : option loc;
  r_lower : option loc;
  r_logSqrtDet : float64;
  r_dim : nat;
}.

Inductive obj : Type :=
  | Floats (v : Vec)
  | SymData (a : SymDense)
  | DenseData (m : Dense)
  | CholData (c : Cholesky)
  | Struct (r : StudentsTRef).

Abbreviation heap := (list obj).

Definition M (A : Type) : Type := heap -> result (A * heap).

Definition hret {A} (a : A) : M A := fun h => Ret (a, h).

Definition hbind {A B} (c : M A) (k : A -> M B) : M B :=
  fun h => match c h with
           | Ret (a, h') => k a h'
           | Panic p => Panic p
           end.

Definition hpanic {A} (p : panic) : M A := fun _ => Panic p.

Definition lift {A} (r : result A) : M A :=
  fun h => match r with
           | Ret a => Ret (a, h)
           | Panic p => Panic p
           end.

Notation "x <~ c ;; k" := (hbind c (fun x => k))
  (at level 100, c at next level, right associativity).

Definition alloc (o : obj) : M loc := fun h => Ret (length h, h ++ [o]).

Definition store (l : loc) (o : obj) : M unit :=
  fun h => if (l <? length h)%nat then Ret (tt, <[l := o]> h)
           else Panic nilDereference.

Definition field (l : option loc) : M loc :=
  match l with
  | Some l => hret l
  | None => hpanic nilDereference
  end.

Definition asFloats (o : obj) : option Vec :=
  match o with Floats v => Some v | _ => None end.

Definition asSym (o : obj) : option SymDense :=
  match o with SymData a => Some a | _ => None end.

Definition asDense (o : obj) : option Dense :=
  match o with DenseData m => Some m | _ => None end.

Definition asChol (o : obj) : option Cholesky :=
  match o with CholData c => Some c | _ => None end.

Definition asStruct (o : obj) : option StudentsTRef :=
  match o with Struct r => Some r | _ => None end.

(** Reading a cell at a given type. *)
Definition loadAs {A} (p : obj -> option A) (l : loc) : M A :=
  fun h => match (h !! l) ≫= p with
           | Some a => Ret (a, h)
           | None => Panic nilDereference
           end.

Abbreviation loadFloats := (loadAs asFloats).
Abbreviation loadSym := (loadAs asSym).
Abbreviation loadDense := (loadAs asDense).
Abbreviation loadChol := (loadAs asChol).
Abbreviation loadStruct := (loadAs asStruct).

Definition hNewStudentsT (mu sigma : loc) (nu : float64)
    (src : option Source) : M (option loc) :=
  mu_v <~ loadFloats mu ;;
  if (length mu_v =? 0)%nat then hpanic badZeroDimension else
  sigma_v <~ loadSym sigma ;;
  let dim := SymmetricDim sigma_v in
  if negb (dim =? length mu_v)%nat then hpanic badSizeMismatch else
  s_mu <~ alloc (Floats (make dim)) ;;
  s <~ alloc (Struct {| r_nu := nu; r_mu := Some s_mu; r_src := src;
                        r_rnd := src; r_sigma := None; r_chol := None;
                        r_lower := None; r_logSqrtDet := zero;
                        r_dim := dim |}) ;;
  dst <~ loadFloats s_mu ;;
  _ <~ store s_mu (Floats (copy dst mu_v)) ;;
  match Factorize sigma_v with
  | None => hret None
  | Some c =>
      s_chol <~ alloc (CholData c) ;;
      s_sigma <~ alloc (SymData (NewSymDense dim)) ;;
      new <~ loadSym s_sigma ;;
      _ <~ store s_sigma (SymData (CopySym new sigma_v)) ;;
      s_lower <~ alloc (DenseData (LTo c)) ;;
      r <~ loadStruct s ;;
      _ <~ store s (Struct {| r_nu := r_nu r; r_mu := r_mu r;
                              r_src := r_src r; r_rnd := r_rnd r;
                              r_sigma := Some s_sigma;
                              r_chol := Some s_chol;
                              r_lower := Some s_lower;
                              r_logSqrtDet := (half * LogDet c)%F;
                              r_dim := r_dim r |}) ;;
      hret (Some s)
  end.

Definition hstudentsTConditional (observed : list Z) (values : Vec)
    (nu : float64) (mu sigma : loc)
    : M (float64 * option (loc * loc)) :=
  mu_v <~ loadFloats mu ;;
  sigma_v <~ loadSym sigma ;;
  let dim := length mu_v in
  let ob := length observed in
  let unobserved := findUnob observed dim in
  let unob := length unobserved in
  if (unob =? 0)%nat then hpanic allDimensionsObserved else
  mu1 <~ alloc (Floats (make unob)) ;;
  m1 <~ lift (rmapM (index mu_v) unobserved) ;;
  _ <~ store mu1 (Floats m1) ;;
  mu2 <~ alloc (Floats (make ob)) ;;
  m2 <~ lift (rmapM (fun iv => x <- index values (Z.of_nat (fst iv)) ;;
                               m <- index mu_v (snd iv) ;;
                               Ret (x - m)%F)
                    (zip (seq 0 ob) observed)) ;;
  _ <~ store mu2 (Floats m2) ;;
  s11 <~ lift (SubsetSym sigma_v unobserved) ;;
  sigma11 <~ alloc (SymData s11) ;;
  s22 <~ lift (SubsetSym sigma_v observed) ;;
  sigma22 <~ alloc (SymData s22) ;;
  sigma21 <~ alloc (DenseData (repeat (repeat zero unob) ob)) ;;
  _ <~ store sigma21
         (DenseData (map (fun r => map (fun c =>
                       At sigma_v (Z.to_nat r) (Z.to_nat c)) unobserved)
                     observed)) ;;
  a22 <~ loadSym sigma22 ;;
  match Factorize a22 with
  | None => hret (NaN, None)
  | Some c =>
      chol <~ alloc (CholData c) ;;
      v <~ loadFloats mu2 ;;
      match SolveVecTo c v with
      | None => hret (NaN, None)
      | Some t =>
          tmp <~ alloc (Floats t) ;;
          b21 <~ loadDense sigma21 ;;
          tmp2 <~ alloc (Floats (MulVec (transpose ob unob b21) t)) ;;
          t2 <~ loadFloats tmp2 ;;
          old1 <~ loadFloats mu1 ;;
          _ <~ store mu1 (Floats (zip_with add old1 t2)) ;;
          match SolveTo c b21 with
          | None => hret (NaN, None)
          | Some t3 =>
              tmp3 <~ alloc (DenseData t3) ;;
              tmp4 <~ alloc (DenseData
                               (Mul ob unob (transpose ob unob b21) t3)) ;;
              t4 <~ loadDense tmp4 ;;
              a11 <~ loadSym sigma11 ;;
              _ <~ store sigma11
                     (SymData (symOf unob (fun i j =>
                                 (At a11 i j - at2 t4 i j)%F))) ;;
              if IsInf nu 1 then hret (nu, Some (mu1, sigma11)) else
              t1 <~ loadFloats tmp ;;
              let beta := Dot v t1 in
              b11 <~ loadSym sigma11 ;;
              _ <~ store sigma11
                     (SymData (ScaleSym
                        ((nu + beta) / (nu + of_int (Z.of_nat ob)))%F b11)) ;;
              hret ((nu + of_int (Z.of_nat ob))%F, Some (mu1, sigma11))
          end
      end
  end.

Definition hConditionStudentsT (s : loc) (observed : list Z) (values : Vec)
    (src : option Source) : M (option loc) :=
  if (length observed =? 0)%nat then hpanic noObservedValue else
  if negb (length observed =? length values)%nat
  then hpanic badInputLength else
  r <~ loadStruct s ;;
  if negb (forallb (in_range (r_dim r)) observed)
  then hpanic observedOutOfBounds else
  s_mu <~ field (r_mu r) ;;
  s_sigma <~ field (r_sigma r) ;;
  res <~ hstudentsTConditional observed values (r_nu r) s_mu s_sigma ;;
  match res with
  | (_, None) => hret None
  | (newNu, Some (newMean, newSigma)) =>
      hNewStudentsT newMean newSigma newNu src
  end.

Definition hMarginalStudentsT (s : loc) (vars : list Z)
    (src : option Source) : M (option loc) :=
  r <~ loadStruct s ;;
  newMean <~ alloc (Floats (make (length vars))) ;;
  s_mu <~ field (r_mu r) ;;
  mu_v <~ loadFloats s_mu ;;
  m <~ lift (rmapM (index mu_v) vars) ;;
  _ <~ store newMean (Floats m) ;;
  s_sigma <~ field (r_sigma r) ;;
  sigma_v <~ loadSym s_sigma ;;
  a <~ lift (SubsetSym sigma_v vars) ;;
  newSigma <~ alloc (SymData a) ;;
  hNewStudentsT newMean newSigma (r_nu r) src.

(** [reuseAs(dst, n)] on a reference: a nil slice is allocated. *)
Definition hreuseAs (dst : option loc) (n : nat) : M loc :=
  match dst with
  | None => alloc (Floats (make n))
  | Some d =>
      v <~ loadFloats d ;;
      if (length v =? n)%nat then hret d else hpanic badOutputLength
  end.

Definition hMean (s : loc) (dst : option loc) : M loc :=
  r <~ loadStruct s ;;
  dst <~ hreuseAs dst (r_dim r) ;;
  s_mu <~ field (r_mu r) ;;
  mu_v <~ loadFloats s_mu ;;
  old <~ loadFloats dst ;;
  _ <~ store dst (Floats (copy old mu_v)) ;;
  hret dst.

Definition hCovarianceMatrix (st : loc) (dst : loc) : M unit :=
  r <~ loadStruct st ;;
  d <~ loadSym dst ;;
  _ <~ (if IsEmpty d then store dst (SymData (GrowSym d (r_dim r)))
        else if negb (SymmetricDim d =? r_dim r)%nat
             then hpanic inputMatrixSizeMismatch
             else hret tt) ;;
  s_sigma <~ field (r_sigma r) ;;
  sigma_v <~ loadSym s_sigma ;;
  d1 <~ loadSym dst ;;
  _ <~ store dst (SymData (CopySym d1 sigma_v)) ;;
  d2 <~ loadSym dst ;;
  store dst (SymData (ScaleSym (r_nu r / (r_nu r - two))%F d2)).

Definition hLogProb (s : loc) (y : loc) : M float64 :=
  r <~ loadStruct s ;;
  y_v <~ loadFloats y ;;
  if negb (length y_v =? r_dim r)%nat then hpanic badInputLength else
  let nu := r_nu r in
  let n := of_int (Z.of_nat (r_dim r)) in
  let lg1 := Lgamma ((nu + n) / two)%F in
  let lg2 := Lgamma (nu / two)%F in
  let t1 := (lg1 - lg2 - n / two * Log (nu * Pi) - r_logSqrtDet r)%F in
  s_mu <~ field (r_mu r) ;;
  mu_v <~ loadFloats s_mu ;;
  s_chol <~ field (r_chol r) ;;
  c <~ loadChol s_chol ;;
  let mahal := Mahalanobis y_v mu_v c in
  let mahal := (mahal * mahal)%F in
  hret (t1 - ((nu + n) / two) * Log (one + mahal / nu))%F.

Definition hRand (s : loc) (dst : option loc) (rs : RandState)
    : M (loc * RandState) :=
  r <~ loadStruct s ;;
  dst <~ hreuseAs dst (r_dim r) ;;
  old <~ loadFloats dst ;;
  let (z, rs1) := drawNormals (r_rnd r) (length old) rs in
  _ <~ store dst (Floats z) ;;
  s_lower <~ field (r_lower r) ;;
  l <~ loadDense s_lower ;;
  y <~ loadFloats dst ;;
  _ <~ store dst (Floats (MulVecLower l y)) ;;
  let (u, rs2) := ChiSquaredRand (r_nu r) (r_src r) rs1 in
  s_mu <~ field (r_mu r) ;;
  mu_v <~ loadFloats s_mu ;;
  y1 <~ loadFloats dst ;;
  _ <~ store dst (Floats (AddScaledTo mu_v (Sqrt (r_nu r / u)) y1)) ;;
  hret (dst, rs2).

(** The distribution a reference stands for, read off the store. *)
Definition readDist (h : heap) (s : loc)
    : option (StudentsT Cholesky Source) :=
  r ← (h !! s) ≫= asStruct;
  m ← (r_mu r ≫= (h !!.)) ≫= asFloats;
  a ← (r_sigma r ≫= (h !!.)) ≫= asSym;
  c ← (r_chol r ≫= (h !!.)) ≫= asChol;
  l ← (r_lower r ≫= (h !!.)) ≫= asDense;
  Some {| nu := r_nu r; mu := m; src := r_src r; rnd := r_rnd r;
          sigma := a; chol := c; lower := l;
          logSqrtDet := r_logSqrtDet r; dim := r_dim r |}.

(** The cells of a distribution: its struct and what it refers to. *)
Definition cells (h : heap) (s : loc) : list loc :=
  match (h !! s) ≫= asStruct with
  | Some r => s :: omap id [r_mu r; r_sigma r; r_chol r; r_lower r]
  | None => [s]
  end.

End Store.

Arguments StudentsTRef : clear implicits.
Arguments obj : clear implicits.

(** The cells of a distribution built at the end of a store of [base]
    cells, in the order [NewStudentsT] allocates them. *)
Definition distCells {Cholesky Source : Type} (base : nat)
    (d : StudentsT Cholesky Source) : list (obj Cholesky Source) :=
  [ Floats (mu d);
    Struct {| r_nu := nu d; r_mu := Some (base + 0)%nat; r_src := src d;
              r_rnd := rnd d; r_sigma := Some (base + 3)%nat;
              r_chol := Some (base + 2)%nat;
              r_lower := Some (base + 4)%nat;
              r_logSqrtDet := logSqrtDet d; r_dim := dim d |};
    CholData (chol d);
    SymData (sigma d);
    DenseData (lower d) ].

(** ** Distributions are never written to *)

(** No cell of the store [H] is written between [H] and [H']. *)
Definition untouched {A} (H H' : list A) : Prop :=
  forall l, (l < length H)%nat -> H' !! l = H !! l.

Section Shapes.

Context {Cholesky Source : Type}.
Abbreviation obj := (obj Cholesky Source).
Abbreviation heap := (list obj).

(** Every cell of the distribution at [s'] was allocated after [H]. *)
Definition fresh_dist (H H' : heap) (s' : loc) : Prop :=
  Forall (fun c => (length H <= c)%nat) (cells H' s').

(** What a call that returns a new distribution may do to the store: the
    distribution [d] at [s] stays as it is, no cell of [H] is written, and
    the result is the distribution [r] of the same call on values, held in
    cells allocated by the call. *)
Definition returns_new_dist (H : heap) (s : loc)
    (d : StudentsT Cholesky Source)
    (pure : result (option (StudentsT Cholesky Source)))
    (r : option loc) (H' : heap) : Prop :=
  readDist H' s = Some d /\ untouched H H'
  /\ match r with
     | None => pure = Ret None
     | Some s' =>
         exists d', pure = Ret (Some d') /\ readDist H' s' = Some d'
                    /\ fresh_dist H H' s' /\ s' <> s
     end.

End Shapes.

(** The caller's store of the scenario: [mu] at 0 and the scale at 1. *)
Definition callerStore : list (obj Dense unit) :=
  [Floats [zero; zero]; SymData (eye 2)].

Definition builtStore : list (obj Dense unit) :=
  callerStore ++ distCells (length callerStore) scenario.

(** ** The single-variable marginal *)

(** Modelled from the spec: [distuv.StudentsT], the univariate distribution
    [MarginalStudentsTSingle] returns; a record of four exported fields. *)
Module distuv.

Record StudentsT (Source : Type) : Type := mk {
  Mu : float64;
  Sigma : float64;
  Nu : float64;
  Src : option Source;
}.

Arguments mk {Source} _ _ _ _.
Arguments Mu {Source} _.
Arguments Sigma {Source} _.
Arguments Nu {Source} _.
Arguments Src {Source} _.

End distuv.

(** [a.At(i, j)] for Go ints: an index outside the matrix panics. *)
Definition AtChecked (a : SymDense) (i j : Z) : result float64 :=
  if in_range (symN a) i && in_range (symN a) j
  then Ret (At a (Z.to_nat i) (Z.to_nat j))
  else Panic indexOutOfRange.

Definition MarginalStudentsTSingle {Cholesky Source : Type}
    (s : StudentsT Cholesky Source) (i : Z) (src : option Source)
    : result (distuv.StudentsT Source) :=
  m <- index (mu s) i ;;
  v <- AtChecked (sigma s) i i ;;
  Ret (distuv.mk m (Sqrt v) (nu s) src).

(** ** What every distribution satisfies *)

(** The fields of a distribution agree with each other: [dim] is positive
    and is the length of [mu] and the size of [sigma], [sigma] is stored
    whole, the generator is bound to the source, and the lower factor and
    the log-determinant term are those of the cached factorization. *)
Definition Invariant {Cholesky Source : Type} `{E : Engine Cholesky}
    (s : StudentsT Cholesky Source) : Prop :=
  dim s <> 0%nat /\ length (mu s) = dim s /\ symN (sigma s) = dim s
  /\ SymWF (sigma s) /\ rnd s = src s /\ lower s = LTo (chol s)
  /\ logSqrtDet s = (half * LogDet (chol s))%F.

(** The indices [ws] of a marginal, read through the indices [vs] of the
    marginal it is taken from. *)
Definition throughIndices (vs ws : list Z) : list Z :=
  map (fun w => nth (Z.to_nat w) vs 0%Z) ws.

(** ** More scenarios *)

(** The two-dimensional standard distribution at the Gaussian limit, and
    the scenario distribution with the location [[1, 2]]. *)
Definition gaussian2 : StudentsT Dense unit :=
  built (E:=refEngine) [zero; zero] (eye 2) PosInf None [[one]; [zero; one]].

Definition scenario12 : StudentsT Dense unit :=
  built (E:=refEngine) [one; two] (eye 2) five None [[one]; [zero; one]].

(** * Proofs *)

(** ** Lists, slices and symmetric matrices *)

Section ListFacts.

Lemma tabulate_length {A} n (f : nat -> A) : length (tabulate n f) = n.
Proof. unfold tabulate. by rewrite length_map, length_seq. Qed.

Lemma tabulate_ext {A} n (f g : nat -> A) :
  (forall i, (i < n)%nat -> f i = g i) -> tabulate n f = tabulate n g.
Proof.
  intros Hfg. unfold tabulate. apply map_ext_in.
  intros i Hi%in_seq. apply Hfg. lia.
Qed.

Lemma tabulate_nth {A} n (f : nat -> A) i d :
  (i < n)%nat -> nth i (tabulate n f) d = f i.
Proof.
  intros Hi. unfold tabulate.
  rewrite (nth_indep _ d (f 0%nat)) by (rewrite length_map, length_seq; lia).
  rewrite map_nth, seq_nth by lia. done.
Qed.

Lemma tabulate_id {A} (l : list A) d :
  tabulate (length l) (fun i => nth i l d) = l.
Proof.
  apply (nth_ext _ _ d d).
  - apply tabulate_length.
  - intros i Hi. rewrite tabulate_length in Hi.
    exact (tabulate_nth (length l) (fun k => nth k l d) i d Hi).
Qed.

Lemma copy_make (l : Vec) n : length l = n -> copy (make n) l = l.
Proof.
  intros <-. unfold copy, make.
  rewrite repeat_length, firstn_all, drop_ge by (rewrite repeat_length; lia).
  apply app_nil_r.
Qed.

Lemma index_of_nat {A} (l : list A) (i : nat) x :
  l !! i = Some x -> index l (Z.of_nat i) = Ret x.
Proof.
  intros Hx. unfold index.
  destruct (Z.ltb_spec (Z.of_nat i) 0); [lia|].
  by rewrite Nat2Z.id, Hx.
Qed.

Lemma index_in_range {A} (l : list A) (i : Z) :
  in_range (length l) i = true -> exists x, index l i = Ret x.
Proof.
  unfold in_range, index. intros [H0 H1]%andb_prop.
  apply Z.leb_le in H0. apply Z.ltb_lt in H1.
  destruct (Z.ltb_spec i 0); [lia|].
  destruct (lookup_lt_is_Some_2 l (Z.to_nat i)) as [x Hx]; [lia|].
  exists x. by rewrite Hx.
Qed.

Lemma index_out_of_range {A} (l : list A) (i : Z) :
  in_range (length l) i = false -> index l i = Panic indexOutOfRange.
Proof.
  unfold in_range, index. intros H.
  destruct (Z.ltb_spec i 0); [done|].
  rewrite lookup_ge_None_2; [done|].
  apply andb_false_iff in H as [H%Z.leb_gt|H%Z.ltb_ge]; lia.
Qed.

(** Reading every position of a slice in order gives the slice back. *)
Lemma rmapM_index_all {A} (pre l : list A) :
  rmapM (index (pre ++ l))
        (map Z.of_nat (seq (length pre) (length l))) = Ret l.
Proof.
  revert pre. induction l as [|x l IH]; intros pre; [done|].
  cbn [length seq map rmapM].
  rewrite (index_of_nat _ _ x).
  2:{ rewrite lookup_app_r, Nat.sub_diag by lia. done. }
  cbn [rbind].
  specialize (IH (pre ++ [x])).
  rewrite length_app, Nat.add_1_r, <- app_assoc in IH. cbn in IH.
  by rewrite IH.
Qed.

Lemma rmapM_index_seq {A} (l : list A) :
  rmapM (index l) (map Z.of_nat (seq 0 (length l))) = Ret l.
Proof. apply (rmapM_index_all [] l). Qed.

End ListFacts.

Section SymFacts.

Lemma symOf_N n f : symN (symOf n f) = n.
Proof. done. Qed.

Lemma symOf_ext n f g :
  (forall i j, (i <= j)%nat -> (j < n)%nat -> f i j = g i j) ->
  symOf n f = symOf n g.
Proof.
  intros Hfg. unfold symOf. f_equal.
  apply tabulate_ext. intros i Hi. apply tabulate_ext. intros j Hj.
  destruct (Nat.leb_spec i j); apply Hfg; lia.
Qed.

Lemma At_symOf n f i j :
  (i <= j)%nat -> (j < n)%nat -> At (symOf n f) i j = f i j.
Proof.
  intros Hij Hj. unfold At, symOf, at2. cbn [symData].
  destruct (Nat.leb_spec i j); [|lia].
  rewrite (tabulate_nth n _ i) by lia.
  rewrite tabulate_nth by lia.
  destruct (Nat.leb_spec i j); [done|lia].
Qed.

Lemma At_sym a i j : At a i j = At a j i.
Proof.
  unfold At.
  destruct (Nat.leb_spec i j), (Nat.leb_spec j i); try done; try lia.
  by replace j with i by lia.
Qed.

(** Every matrix made by [symOf] is well formed. *)
Lemma symOf_WF n f : SymWF (symOf n f).
Proof.
  unfold SymWF. rewrite symOf_N. apply symOf_ext.
  intros i j Hij Hj. by apply At_symOf.
Qed.

Lemma symOf_At n f : symOf n (At (symOf n f)) = symOf n f.
Proof. apply (symOf_WF n f). Qed.

Lemma CopySym_New a : CopySym (NewSymDense (symN a)) a = symOf (symN a) (At a).
Proof.
  unfold CopySym, NewSymDense. rewrite symOf_N, Nat.min_id.
  apply symOf_ext. intros i j Hij Hj.
  destruct (Nat.ltb_spec j (symN a)); [done|lia].
Qed.

Lemma CopySym_New_WF a : SymWF a -> CopySym (NewSymDense (symN a)) a = a.
Proof. intros Ha. by rewrite CopySym_New. Qed.

Lemma forallb_in_range_seq n :
  forallb (in_range n) (map Z.of_nat (seq 0 n)) = true.
Proof.
  apply forallb_forall. intros z [i [<- Hi%in_seq]]%in_map_iff.
  unfold in_range. apply andb_true_intro. split.
  - apply Z.leb_le. lia.
  - apply Z.ltb_lt. lia.
Qed.

Lemma nth_iota n i :
  (i < n)%nat -> nth i (map Z.of_nat (seq 0 n)) 0%Z = Z.of_nat i.
Proof.
  intros Hi. change 0%Z with (Z.of_nat 0).
  by rewrite map_nth, seq_nth by lia.
Qed.

(** Keeping every coordinate, in order, reads the matrix back. *)
Lemma SubsetSym_all a :
  SubsetSym a (map Z.of_nat (seq 0 (symN a))) = Ret (symOf (symN a) (At a)).
Proof.
  unfold SubsetSym. rewrite forallb_in_range_seq.
  rewrite length_map, length_seq. f_equal.
  apply symOf_ext. intros i j Hij Hj.
  rewrite (nth_iota (symN a) i), (nth_iota (symN a) j) by lia.
  by rewrite !Nat2Z.id.
Qed.

End SymFacts.

(** ** The builder *)

Section Builder.

Context {Cholesky Source : Type} `{E : Engine Cholesky}.

Lemma NewStudentsT_panics mu0 sigma0 nu0 (src0 : option Source) :
  panics (NewStudentsT mu0 sigma0 nu0 src0)
  <-> length mu0 = 0%nat \/ SymmetricDim sigma0 <> length mu0.
Proof.
  unfold NewStudentsT.
  destruct (Nat.eqb_spec (length mu0) 0) as [H0|H0];
    [cbn; split; [by left|done]|].
  destruct (Nat.eqb_spec (SymmetricDim sigma0) (length mu0)) as [Hd|Hd]; cbn.
  - destruct (Factorize sigma0); cbn; split; try done; intros [?|?]; done.
  - split; [by right|done].
Qed.

Lemma NewStudentsT_fails mu0 sigma0 nu0 (src0 : option Source) :
  length mu0 <> 0%nat -> SymmetricDim sigma0 = length mu0 ->
  Factorize sigma0 = None ->
  NewStudentsT mu0 sigma0 nu0 src0 = Ret None.
Proof.
  intros H0 Hd Hf. unfold NewStudentsT.
  destruct (Nat.eqb_spec (length mu0) 0); [done|].
  destruct (Nat.eqb_spec (SymmetricDim sigma0) (length mu0)); [|done].
  cbn. by rewrite Hf.
Qed.

Lemma NewStudentsT_builds mu0 sigma0 nu0 (src0 : option Source) (c : Cholesky) :
  length mu0 <> 0%nat -> SymmetricDim sigma0 = length mu0 ->
  Factorize sigma0 = Some c ->
  NewStudentsT mu0 sigma0 nu0 src0 = Ret (Some (built mu0 sigma0 nu0 src0 c)).
Proof.
  intros H0 Hd Hf. unfold NewStudentsT.
  destruct (Nat.eqb_spec (length mu0) 0); [done|].
  destruct (Nat.eqb_spec (SymmetricDim sigma0) (length mu0)); [|done].
  cbn. rewrite Hf. unfold built, SymmetricDim in *.
  by rewrite copy_make, CopySym_New, Hd.
Qed.

(** Inversion: a returned distribution is [built] from a factorization. *)
Lemma NewStudentsT_inv mu0 sigma0 nu0 (src0 : option Source) d :
  NewStudentsT mu0 sigma0 nu0 src0 = Ret (Some d) ->
  exists c, length mu0 <> 0%nat /\ SymmetricDim sigma0 = length mu0 /\
            Factorize sigma0 = Some c /\ d = built mu0 sigma0 nu0 src0 c.
Proof.
  intros Hd.
  destruct (Nat.eq_dec (length mu0) 0) as [H0|H0].
  { unfold NewStudentsT in Hd. rewrite H0 in Hd. done. }
  destruct (Nat.eq_dec (SymmetricDim sigma0) (length mu0)) as [Hn|Hn].
  2:{ pose proof (proj2 (NewStudentsT_panics mu0 sigma0 nu0 src0)
                        (or_intror Hn)) as Hp.
      rewrite Hd in Hp. done. }
  destruct (Factorize sigma0) as [c|] eqn:Hf.
  - exists c. rewrite (NewStudentsT_builds _ _ _ _ c) in Hd by done.
    by simplify_eq.
  - rewrite NewStudentsT_fails in Hd by done. done.
Qed.

End Builder.

(** ** Signs of binary64 results *)

Section Signs.

Lemma round_aux_sign s m e l :
  sign_or_nan s (binary_round_aux prec emax s m e l).
Proof.
  unfold binary_round_aux.
  destruct (shr_fexp prec emax m e l) as [mrs e'].
  destruct (shr_fexp prec emax _ e' loc_Exact) as [mrs' e''].
  destruct (shr_m mrs'); cbn; [done| |done].
  destruct (Z.leb e'' (emax - prec)); done.
Qed.










End Signs.

(** ** The reference engine rejects a negative diagonal entry *)

Section ReferenceFacts.




End ReferenceFacts.




(** ** The builder does not inspect the degrees of freedom *)

(** C2 (as amended): [NewStudentsT] stores [nu] as given and performs no
    check on it: a call that returns a distribution returns one for every
    other [nu] as well, [nu <= 2] included. *)
Theorem NewStudentsT_keeps_nu {Cholesky Source : Type} `{E : Engine Cholesky}
    (mu0 : Vec) (sigma0 : SymDense) (nu0 : float64) (src0 : option Source)
    (d : StudentsT Cholesky Source) :
  NewStudentsT mu0 sigma0 nu0 src0 = Ret (Some d) ->
  nu d = nu0
  /\ forall nu1, exists d1,
       NewStudentsT mu0 sigma0 nu1 src0 = Ret (Some d1) /\ nu d1 = nu1.
Proof.
  intros (c & H0 & Hn & Hf & ->)%NewStudentsT_inv. split; [done|].
  intros nu1. exists (built mu0 sigma0 nu1 src0 c).
  split; [by apply NewStudentsT_builds|done].
Qed.

Lemma NewStudentsT_keeps_nu_witness :
  exists d, NewStudentsT (E:=refEngine) (Source:=unit)
              [zero] (eye 1) five None = Ret (Some d)
            /\ nu d = five
            /\ exists d1, NewStudentsT (E:=refEngine) (Source:=unit)
                            [zero] (eye 1) one None = Ret (Some d1)
                          /\ nu d1 = one.
Proof.
  destruct (NewStudentsT (E:=refEngine) (Source:=unit)
              [zero] (eye 1) five None) as [[d|]|p] eqn:Hd;
    [|vm_compute in Hd; discriminate..].
  exists d. split; [reflexivity|].
  destruct (NewStudentsT_keeps_nu _ _ _ _ _ Hd) as [Hnu Hany].
  split; [exact Hnu|exact (Hany one)].
Defined.

(** C2, as stated, fails: the one-dimensional build with the identity scale
    and [nu = 1] returns a distribution whose [nu] is [1 <= 2]. *)
Lemma NewStudentsT_accepts_nu_one :
  exists d, NewStudentsT (E:=refEngine) (Source:=unit)
              [zero] (eye 1) one None = Ret (Some d)
            /\ nu d = one /\ leb (nu d) two = true.
Proof.
  exists (built (E:=refEngine) (Source:=unit)
            [zero] (eye 1) one None [[one]]).
  split; [vm_compute; reflexivity|].
  split; vm_compute; reflexivity.
Qed.

(** ** The unobserved coordinates *)

Section Unobserved.

Lemma findUnob_elem (observed : list Z) (dim : nat) (x : Z) :
  x ∈ findUnob observed dim
  <-> (0 <= x < Z.of_nat dim)%Z /\ x ∉ observed.
Proof.
  unfold findUnob. rewrite merge_sort_Permutation, elem_of_elements.
  rewrite elem_of_difference, !elem_of_list_to_set, list_elem_of_fmap.
  split.
  - intros [(i & -> & Hi%elem_of_seq) Hno]. split; [lia|done].
  - intros [Hx Hno]. split; [|done].
    exists (Z.to_nat x). split; [lia|]. apply elem_of_seq. lia.
Qed.

Lemma StronglySorted_filter {A} (R : relation A) (P : A -> Prop)
    `{forall x, Decision (P x)} (l : list A) :
  StronglySorted R l -> StronglySorted R (filter P l).
Proof.
  induction 1 as [|x l Hl IH Hx]; [constructor|].
  rewrite filter_cons. destruct (decide (P x)); [|done].
  constructor; [done|].
  apply Forall_forall. intros y [_ Hy]%list_elem_of_filter.
  rewrite Forall_forall in Hx. by apply Hx.
Qed.

Lemma StronglySorted_iota (a n : nat) :
  StronglySorted Z.le (Z.of_nat <$> seq a n).
Proof.
  revert a. induction n as [|n IH]; intros a; [constructor|].
  cbn. constructor; [apply IH|].
  apply Forall_forall. intros y (i & -> & Hi%elem_of_seq)%list_elem_of_fmap.
  lia.
Qed.

(** The complement of the observed set in [0, dim), in ascending order,
    whatever the order and the repetitions of [observed]. *)
Lemma findUnob_filter (observed : list Z) (dim : nat) :
  findUnob observed dim
  = filter (fun i => i ∉ observed) (Z.of_nat <$> seq 0 dim).
Proof.
  apply (Sorted_unique Z.le).
  - unfold findUnob. apply Sorted_merge_sort. apply _.
  - apply StronglySorted_Sorted, StronglySorted_filter, StronglySorted_iota.
  - apply NoDup_Permutation.
    + unfold findUnob. rewrite merge_sort_Permutation. apply NoDup_elements.
    + apply NoDup_filter, NoDup_fmap_2; [apply _|apply NoDup_seq].
    + intros x. rewrite findUnob_elem, list_elem_of_filter, list_elem_of_fmap.
      split.
      * intros [Hx Hno]. split; [done|].
        exists (Z.to_nat x). split; [lia|]. apply elem_of_seq. lia.
      * intros [Hno (i & -> & Hi%elem_of_seq)]. split; [lia|done].
Qed.

Lemma findUnob_in_range (observed : list Z) (dim : nat) :
  forallb (in_range dim) (findUnob observed dim) = true.
Proof.
  apply forallb_forall. intros x Hx%list_elem_of_In%findUnob_elem.
  unfold in_range. apply andb_true_intro.
  split; [apply Z.leb_le|apply Z.ltb_lt]; lia.
Qed.

End Unobserved.

(** ** Conditioning computes the blocks of the partition *)

Section Conditional.

Context {Cholesky Source : Type} `{E : Engine Cholesky}.

Lemma rmapM_index_pick (mu : Vec) (idx : list Z) :
  forallb (in_range (length mu)) idx = true ->
  rmapM (index mu) idx = Ret (pick mu idx).
Proof.
  induction idx as [|i idx IH]; [done|].
  cbn [forallb]. intros [Hi Hidx]%andb_prop.
  cbn [rmapM pick map]. rewrite (IH Hidx). clear IH.
  unfold index, in_range in *. apply andb_prop in Hi as [H0 H1].
  apply Z.leb_le in H0. apply Z.ltb_lt in H1.
  destruct (Z.ltb_spec i 0); [lia|].
  destruct (lookup_lt_is_Some_2 mu (Z.to_nat i)) as [x Hx]; [lia|].
  rewrite Hx. cbn. do 2 f_equal.
  rewrite nth_lookup, Hx. done.
Qed.

Lemma rmapM_observed_from (mu pre values : Vec) (observed : list Z) :
  length values = length observed ->
  forallb (in_range (length mu)) observed = true ->
  rmapM (fun iv => x <- index (pre ++ values) (Z.of_nat (fst iv)) ;;
                   m <- index mu (snd iv) ;;
                   Ret (x - m)%F)
        (zip (seq (length pre) (length observed)) observed)
  = Ret (zip_with sub values (pick mu observed)).
Proof.
  revert pre values.
  induction observed as [|v observed IH]; intros pre values Hlen Hin.
  { by destruct values. }
  destruct values as [|x values]; [done|].
  cbn [forallb] in Hin. apply andb_prop in Hin as [Hv Hin].
  cbn [length seq zip zip_with rmapM fst snd pick map].
  rewrite (index_of_nat _ _ x).
  2:{ rewrite lookup_app_r, Nat.sub_diag by lia. done. }
  cbn [rbind].
  pose proof (rmapM_index_pick mu [v]) as Hp.
  cbn [forallb rmapM pick map rbind] in Hp. rewrite Hv in Hp.
  specialize (Hp eq_refl).
  destruct (index mu v) as [m|p]; [|done]. cbn in Hp. simplify_eq.
  cbn [rbind].
  specialize (IH (pre ++ [x]) values).
  rewrite length_app, Nat.add_1_r, <- app_assoc in IH. cbn [app] in IH.
  rewrite IH; [done| |done]. cbn in Hlen. lia.
Qed.

Lemma SubsetSym_subSym (sigma : SymDense) (idx : list Z) :
  forallb (in_range (symN sigma)) idx = true ->
  SubsetSym sigma idx = Ret (subSym sigma idx).
Proof. intros Hin. unfold SubsetSym. by rewrite Hin. Qed.

(** On indices inside the matrix, with one coordinate left unobserved,
    [studentsTConditional] returns the parameters of the spec. *)
Lemma studentsTConditional_params (observed : list Z) (values : Vec)
    (nu : float64) (mu : Vec) (sigma : SymDense) :
  symN sigma = length mu ->
  length values = length observed ->
  forallb (in_range (length mu)) observed = true ->
  findUnob observed (length mu) <> [] ->
  studentsTConditional observed values nu mu sigma
  = Ret (conditionalParams observed values nu mu sigma).
Proof.
  intros Hn Hlen Hin Hun. unfold studentsTConditional, conditionalParams.
  destruct (Nat.eqb_spec (length (findUnob observed (length mu))) 0) as [H0|_].
  { by apply nil_length_inv in H0. }
  rewrite rmapM_index_pick by apply findUnob_in_range. cbn [rbind].
  pose proof (rmapM_observed_from mu [] values observed Hlen Hin) as Hmu2.
  cbn [app length] in Hmu2. rewrite Hmu2. clear Hmu2. cbn [rbind].
  rewrite (SubsetSym_subSym sigma (findUnob observed (length mu)))
    by (rewrite Hn; apply findUnob_in_range).
  rewrite (SubsetSym_subSym sigma observed) by (by rewrite Hn).
  cbn [rbind]. unfold condScale, condMean, condSchur, condBlock, condDiff, block.
  destruct (Factorize _) as [c|]; [|done].
  destruct (SolveVecTo c _) as [t|]; [|done].
  destruct (SolveTo c _) as [tm|]; [|done].
  by destruct (IsInf nu 1).
Qed.

End Conditional.

Section Conditioning.

Context {Cholesky Source : Type} `{E : Engine Cholesky}.

Lemma condMean_length mu sigma observed t :
  length (condMean mu sigma observed t)
  = length (findUnob observed (length mu)).
Proof.
  unfold condMean, pick, MulVec, transpose.
  rewrite length_zip_with, !length_map, tabulate_length. lia.
Qed.

Lemma ConditionStudentsT_params (s : StudentsT Cholesky Source)
    (observed : list Z) (values : Vec) (src1 : option Source) :
  length (mu s) = dim s -> symN (sigma s) = dim s ->
  observed <> [] -> length values = length observed ->
  forallb (in_range (dim s)) observed = true ->
  findUnob observed (dim s) <> [] ->
  ConditionStudentsT s observed values src1
  = match conditionalParams observed values (nu s) (mu s) (sigma s) with
    | (_, None) => Ret None
    | (newNu, Some (newMean, newSigma)) =>
        NewStudentsT newMean newSigma newNu src1
    end.
Proof.
  intros Hmu Hsig Hne Hlen Hin Hun. unfold ConditionStudentsT.
  destruct (Nat.eqb_spec (length observed) 0) as [H0|_].
  { by apply nil_length_inv in H0. }
  destruct (Nat.eqb_spec (length observed) (length values)); [|lia].
  rewrite Hin. cbn [negb].
  rewrite studentsTConditional_params; rewrite ?Hmu; done.
Qed.

Lemma ConditionStudentsT_out_of_range (s : StudentsT Cholesky Source)
    (observed : list Z) (values : Vec) (src1 : option Source) :
  forallb (in_range (dim s)) observed = false ->
  panics (ConditionStudentsT s observed values src1).
Proof.
  intros Hout. unfold ConditionStudentsT.
  destruct (length observed =? 0)%nat; [done|].
  destruct (length observed =? length values)%nat; [|done].
  by rewrite Hout.
Qed.

End Conditioning.

Lemma scenario_built :
  NewStudentsT (E:=refEngine) [zero; zero] (eye 2) five None
  = Ret (Some scenario).
Proof. vm_compute. reflexivity. Qed.

(** C5: for a distribution with finite [nu] and an observation of [k]
    coordinates inside the distribution that leaves one coordinate
    unobserved, when the factorization [c] of [S22], the two solves against
    it ([t] for [d = values - mu2], [tm] for [S21]) and the builder succeed,
    [ConditionStudentsT] returns the built distribution: its mean is
    [mu1 + S21' t], its scale [(S11 - S21' tm) * (nu + d.t) / (nu + k)] and
    its degrees of freedom [nu + k]; and a returned distribution always
    arises this way. *)
Theorem ConditionStudentsT_finite {Cholesky Source : Type} `{E : Engine Cholesky}
    (s : StudentsT Cholesky Source) (observed : list Z) (values : Vec)
    (src1 : option Source) :
  length (mu s) = dim s -> symN (sigma s) = dim s ->
  observed <> [] -> length values = length observed ->
  forallb (in_range (dim s)) observed = true ->
  findUnob observed (dim s) <> [] ->
  is_finite (nu s) = true ->
  let k := of_int (Z.of_nat (length observed)) in
  let d := condDiff (mu s) observed values in
  (forall c t tm s',
     Factorize (subSym (sigma s) observed) = Some c ->
     SolveVecTo c d = Some t ->
     SolveTo c (condBlock (mu s) (sigma s) observed) = Some tm ->
     NewStudentsT (condMean (mu s) (sigma s) observed t)
                  (condScale (nu s) (mu s) (sigma s) observed values t tm)
                  (nu s + k)%F src1 = Ret (Some s') ->
     ConditionStudentsT s observed values src1 = Ret (Some s'))
  /\ (forall s',
     ConditionStudentsT s observed values src1 = Ret (Some s') ->
     exists c t tm,
       Factorize (subSym (sigma s) observed) = Some c
       /\ SolveVecTo c d = Some t
       /\ SolveTo c (condBlock (mu s) (sigma s) observed) = Some tm
       /\ mu s' = condMean (mu s) (sigma s) observed t
       /\ sigma s' = condScale (nu s) (mu s) (sigma s) observed values t tm
       /\ nu s' = (nu s + k)%F).
Proof.
  intros Hmu Hsig Hne Hlen Hin Hun Hfin k d.
  assert (Hinf : IsInf (nu s) 1 = false) by (by destruct (nu s)).
  rewrite ConditionStudentsT_params by done.
  unfold conditionalParams. fold d. rewrite Hinf. split.
  - intros c t tm s' Hc Ht Htm Hs'. by rewrite Hc, Ht, Htm.
  - intros s'. destruct (Factorize _) as [c|] eqn:Hc; [|done].
    destruct (SolveVecTo c d) as [t|] eqn:Ht; [|done].
    destruct (SolveTo c _) as [tm|] eqn:Htm; [|done].
    intros (c' & _ & _ & _ & ->)%NewStudentsT_inv.
    exists c, t, tm. repeat (split; [done|]).
    split; [|done]. cbn. apply symOf_WF.
Qed.

Lemma ConditionStudentsT_finite_witness :
  exists s',
    ConditionStudentsT (E:=refEngine) scenario [0%Z] [one] None = Ret (Some s')
    /\ mu s' = [zero] /\ sigma s' = eye 1 /\ nu s' = of_int 6 /\ dim s' = 1%nat.
Proof.
  pose (s' := built (E:=refEngine) (Source:=unit)
                [zero] (eye 1) (of_int 6) None [[one]]).
  exists s'. split; [|by vm_compute].
  refine (proj1 (ConditionStudentsT_finite (E:=refEngine) scenario
                   [0%Z] [one] None _ _ _ _ _ _ _)
                [[one]] [one] [[zero]] s' _ _ _ _);
    try (vm_compute; reflexivity); try discriminate.
Defined.

(** C3: an index outside [0, n) makes [ConditionStudentsT] panic; a
    repeated index does not: on indices inside the distribution that leave
    one coordinate unobserved, repeated or not, the call returns, with a
    distribution or with the failure result [nil, false]. *)
Theorem ConditionStudentsT_repeated_index {Cholesky Source : Type}
    `{E : Engine Cholesky}
    (s : StudentsT Cholesky Source) (observed : list Z) (values : Vec)
    (src1 : option Source) :
  length (mu s) = dim s -> symN (sigma s) = dim s ->
  observed <> [] -> length values = length observed ->
  (forallb (in_range (dim s)) observed = false ->
   panics (ConditionStudentsT s observed values src1))
  /\ (forallb (in_range (dim s)) observed = true ->
      findUnob observed (dim s) <> [] ->
      ~ panics (ConditionStudentsT s observed values src1)).
Proof.
  intros Hmu Hsig Hne Hlen. split; [apply ConditionStudentsT_out_of_range|].
  intros Hin Hun. rewrite ConditionStudentsT_params by done.
  unfold conditionalParams.
  destruct (Factorize _) as [c|]; [|by intros []].
  destruct (SolveVecTo c _) as [t|]; [|by intros []].
  destruct (SolveTo c _) as [tm|]; [|by intros []].
  assert (Hu : length (findUnob observed (dim s)) <> 0%nat).
  { by intros ?%nil_length_inv. }
  destruct (IsInf (nu s) 1); rewrite NewStudentsT_panics, condMean_length;
    unfold condScale, condSchur, ScaleSym, SymmetricDim; rewrite !symOf_N;
    rewrite Hmu; intros [?|?]; done.
Qed.

Lemma ConditionStudentsT_repeated_index_witness :
  ConditionStudentsT (E:=refEngine) scenario [0%Z; 0%Z] [one; one] None
  = Ret None
  /\ ~ panics (ConditionStudentsT (E:=refEngine) scenario
                 [0%Z; 0%Z] [one; one] None)
  /\ panics (ConditionStudentsT (E:=refEngine) scenario
               [0%Z; 2%Z] [one; one] None).
Proof.
  split; [vm_compute; reflexivity|].
  pose proof (ConditionStudentsT_repeated_index (E:=refEngine) scenario
                [0%Z; 0%Z] [one; one] None) as H00.
  pose proof (ConditionStudentsT_repeated_index (E:=refEngine) scenario
                [0%Z; 2%Z] [one; one] None) as H02.
  split.
  - apply H00; try (vm_compute; reflexivity); discriminate.
  - apply H02; try (vm_compute; reflexivity); discriminate.
Defined.

(** ** Marginals *)

(** C6: for a distribution built from a well-formed scale matrix, the
    marginal that keeps every coordinate in order is returned, and its
    location, scale, degrees of freedom and cached factorization (the
    factorization, its lower factor and the log-determinant term) are those
    of the original. *)
Theorem MarginalStudentsT_all {Cholesky Source : Type} `{E : Engine Cholesky}
    (mu0 : Vec) (sigma0 : SymDense) (nu0 : float64)
    (src0 src1 : option Source) (s : StudentsT Cholesky Source) :
  SymWF sigma0 ->
  NewStudentsT mu0 sigma0 nu0 src0 = Ret (Some s) ->
  exists s',
    MarginalStudentsT s (map Z.of_nat (seq 0 (dim s))) src1 = Ret (Some s')
    /\ mu s' = mu s /\ sigma s' = sigma s /\ nu s' = nu s
    /\ chol s' = chol s /\ lower s' = lower s
    /\ logSqrtDet s' = logSqrtDet s /\ dim s' = dim s.
Proof.
  intros Hwf (c & H0 & Hn & Hf & ->)%NewStudentsT_inv.
  exists (built mu0 sigma0 nu0 src1 c). split; [|done].
  unfold MarginalStudentsT, SymmetricDim in *. cbn [mu sigma dim nu built].
  rewrite rmapM_index_seq. cbn [rbind].
  rewrite Hwf, <- Hn, SubsetSym_all, Hwf. cbn [rbind].
  by apply NewStudentsT_builds.
Qed.

Lemma MarginalStudentsT_all_witness :
  exists s',
    MarginalStudentsT (E:=refEngine) scenario [0%Z; 1%Z] None = Ret (Some s')
    /\ mu s' = mu scenario /\ sigma s' = sigma scenario /\ nu s' = nu scenario
    /\ chol s' = chol scenario /\ lower s' = lower scenario
    /\ logSqrtDet s' = logSqrtDet scenario /\ dim s' = dim scenario.
Proof.
  refine (MarginalStudentsT_all (E:=refEngine) [zero; zero] (eye 2) five
            None None scenario _ scenario_built).
  apply symOf_WF.
Defined.

(** ** Covariance *)

Section Covariance.

Context {Cholesky Source : Type}.

Lemma CovarianceMatrix_mismatch (st : StudentsT Cholesky Source) dst :
  IsEmpty dst = false -> SymmetricDim dst <> dim st ->
  CovarianceMatrix st dst = Panic inputMatrixSizeMismatch.
Proof.
  intros He Hd. unfold CovarianceMatrix. rewrite He.
  by destruct (Nat.eqb_spec (SymmetricDim dst) (dim st)).
Qed.

Lemma CovarianceMatrix_scaled (st : StudentsT Cholesky Source) dst :
  symN (sigma st) = dim st ->
  IsEmpty dst = true \/ SymmetricDim dst = dim st ->
  CovarianceMatrix st dst
  = Ret (symOf (dim st)
           (fun i j => (nu st / (nu st - two) * At (sigma st) i j)%F)).
Proof.
  intros Hs Hd. unfold CovarianceMatrix.
  assert (Hdst : exists dst',
    (if IsEmpty dst then Ret (GrowSym dst (dim st))
     else if negb (SymmetricDim dst =? dim st)%nat
          then Panic inputMatrixSizeMismatch else Ret dst) = Ret dst'
    /\ symN dst' = dim st).
  { unfold IsEmpty, SymmetricDim in *.
    destruct (Nat.eqb_spec (symN dst) 0) as [H0|H0].
    - exists (GrowSym dst (dim st)). split; [done|]. cbn. lia.
    - destruct Hd as [?|Hd]; [done|]. exists dst.
      by destruct (Nat.eqb_spec (symN dst) (dim st)). }
  destruct Hdst as (dst' & -> & Hn). cbn [rbind]. f_equal.
  unfold ScaleSym, CopySym. rewrite symOf_N, Hn, Hs, Nat.min_id.
  apply symOf_ext. intros i j Hij Hj.
  rewrite At_symOf by done.
  by destruct (Nat.ltb_spec j (dim st)); [|lia].
Qed.

End Covariance.

(** C8: the covariance of a built distribution is the symmetric [n x n]
    matrix of the entries [nu / (nu - 2) * sigma(i, j)], for every [nu]
    (so for [nu > 2]), whether the destination is empty or of dimension
    [n]; a non-empty destination of another dimension is a panic; and for
    the identity scale and [nu = 4] the result is exactly twice the
    identity. *)
Theorem CovarianceMatrix_spec {Cholesky Source : Type} `{E : Engine Cholesky}
    (mu0 : Vec) (sigma0 : SymDense) (nu0 : float64) (src0 : option Source)
    (st : StudentsT Cholesky Source) (dst : SymDense) :
  NewStudentsT mu0 sigma0 nu0 src0 = Ret (Some st) ->
  let n := length mu0 in
  let cov := symOf n (fun i j => (nu0 / (nu0 - two) * At sigma0 i j)%F) in
  (IsEmpty dst = true \/ SymmetricDim dst = n ->
   CovarianceMatrix st dst = Ret cov)
  /\ SymmetricDim cov = n /\ SymWF cov
  /\ (forall i j, At cov i j = At cov j i)
  /\ (IsEmpty dst = false -> SymmetricDim dst <> n ->
      CovarianceMatrix st dst = Panic inputMatrixSizeMismatch)
  /\ (sigma0 = eye n -> nu0 = of_int 4 ->
      cov = symOf n (fun i j => if (i =? j)%nat then two else zero)).
Proof.
  intros (c & H0 & Hn & Hf & ->)%NewStudentsT_inv n cov.
  unfold SymmetricDim in *. split; [|split; [done|split; [apply symOf_WF|]]].
  - intros Hd. rewrite CovarianceMatrix_scaled; cbn [dim sigma nu built];
      rewrite ?symOf_N; try done.
    f_equal. rewrite Hn. apply symOf_ext. intros i j Hij Hj.
    by rewrite At_symOf.
  - split; [intros i j; apply At_sym|]. split.
    + intros He Hd. by apply CovarianceMatrix_mismatch.
    + intros -> ->. apply symOf_ext. intros i j Hij Hj.
      unfold eye. rewrite At_symOf by done.
      destruct (i =? j)%nat; vm_compute; reflexivity.
Qed.

Lemma CovarianceMatrix_spec_witness :
  CovarianceMatrix scenario (NewSymDense 0)
  = Ret (symOf 2 (fun i j => (five / (five - two) * At (eye 2) i j)%F))
  /\ CovarianceMatrix scenario (NewSymDense 3)
     = Panic inputMatrixSizeMismatch.
Proof.
  destruct (CovarianceMatrix_spec (E:=refEngine) [zero; zero] (eye 2) five
              None scenario (NewSymDense 0) scenario_built)
    as (Hcov & _).
  destruct (CovarianceMatrix_spec (E:=refEngine) [zero; zero] (eye 2) five
              None scenario (NewSymDense 3) scenario_built)
    as (_ & _ & _ & _ & Hpanic & _).
  split; [apply Hcov; by left|apply Hpanic; [done|cbn; lia]].
Defined.

(** ** More binary64 facts *)

Section Rounding.

Lemma shr_1_nonneg mrs : (0 <= shr_m mrs)%Z -> (0 <= shr_m (shr_1 mrs))%Z.
Proof. destruct mrs as [[|[p|p|]|p] r s]; cbn; lia. Qed.

Lemma iter_pos_invariant {A} (P : A -> Prop) (f : A -> A) :
  (forall x, P x -> P (f x)) -> forall p x, P x -> P (SpecFloat.iter_pos f p x).
Proof.
  intros Hf. induction p as [p IH|p IH|]; intros x Hx; cbn; auto.
Qed.

Lemma shr_nonneg mrs e n :
  (0 <= shr_m mrs)%Z -> (0 <= shr_m (fst (shr mrs e n)))%Z.
Proof.
  intros Hm. destruct n; cbn; try done.
  by apply (iter_pos_invariant (fun r => 0 <= shr_m r)%Z), Hm; apply shr_1_nonneg.
Qed.

Lemma shr_fexp_nonneg m e l :
  (0 <= m)%Z -> (0 <= shr_m (fst (shr_fexp prec emax m e l)))%Z.
Proof.
  intros Hm. unfold shr_fexp. apply shr_nonneg. by destruct l as [|[]].
Qed.

Lemma round_nearest_even_nonneg m l :
  (0 <= m)%Z -> (0 <= round_nearest_even m l)%Z.
Proof.
  intros Hm. destruct l as [|[]]; cbn; try lia.
  destruct (Z.even m); lia.
Qed.

(** Rounding a non-negative mantissa never gives NaN. *)
Lemma round_aux_not_nan s m e l :
  (0 <= m)%Z -> binary_round_aux prec emax s m e l <> S754_nan.
Proof.
  intros Hm. unfold binary_round_aux.
  pose proof (shr_fexp_nonneg m e l Hm) as H1.
  destruct (shr_fexp prec emax m e l) as [mrs e']. cbn [fst] in H1.
  pose proof (shr_fexp_nonneg _ e' loc_Exact
                (round_nearest_even_nonneg _ (loc_of_shr_record mrs) H1)) as H2.
  destruct (shr_fexp prec emax _ e' loc_Exact) as [mrs' e'']. cbn [fst] in H2.
  destruct (shr_m mrs'); [done| |lia].
  by destruct (Z.leb e'' (emax - prec)).
Qed.

(** [float64(n)] of a non-negative int is a zero, a positive finite value
    or plus infinity. *)
Lemma of_int_nonneg (n : nat) :
  match of_int (Z.of_nat n) with
  | S754_nan => False
  | S754_zero _ => True
  | S754_infinity s | S754_finite s _ _ => s = false
  end.
Proof.
  unfold of_int, binary_normalize.
  destruct (Z.of_nat n) as [|p|p] eqn:Hn; [done| |lia].
  unfold binary_round. destruct (shl_align p 0 _) as [mz ez].
  pose proof (round_aux_sign false (Zpos mz) ez loc_Exact) as Hs.
  pose proof (round_aux_not_nan false (Zpos mz) ez loc_Exact) as Hnn.
  destruct (binary_round_aux prec emax false (Zpos mz) ez loc_Exact);
    try done. by apply Hnn.
Qed.

Lemma add_PosInf_of_int (n : nat) : (PosInf + of_int (Z.of_nat n))%F = PosInf.
Proof.
  pose proof (of_int_nonneg n) as Hn.
  destruct (of_int (Z.of_nat n)) as [s|s| |s m e]; try done. by subst.
Qed.

Lemma sub_nan_l x : (NaN - x)%F = NaN.
Proof. done. Qed.

Lemma sub_zero_r x : (x - zero)%F = x.
Proof. by destruct x as [[]|s| |s m e]. Qed.

Lemma digits_shift m :
  Zpos (digits2_pos (Pos.mul 4503599627370496 m))
  = (Zpos (digits2_pos m) + 52)%Z.
Proof.
  cbv [Pos.mul]. cbn [digits2_pos]. rewrite !Pos2Z.inj_succ. lia.
Qed.

(** Multiplying a binary64 value by one gives it back. *)
Lemma mul_one_l x : valid_binary prec emax x = true -> (one * x)%F = x.
Proof.
  destruct x as [s|s| |s m e]; try reflexivity.
  cbn [valid_binary]. unfold bounded, canonical_mantissa.
  intros [Hc He]%andb_prop. apply Z.eqb_eq in Hc.
  unfold mul, one, SFmul. cbn [xorb].
  unfold binary_round_aux, shr_fexp. unfold Zdigits2 at 1.
  rewrite digits_shift.
  replace (Z.pos (digits2_pos m) + 52 + (-52 + e))%Z
    with (Z.pos (digits2_pos m) + e)%Z by lia.
  rewrite Hc. replace (e - (-52 + e))%Z with 52%Z by lia.
  cbn [shr shr_record_of_loc].
  change (SpecFloat.iter_pos shr_1 52
            {| shr_m := Z.pos (4503599627370496 * m);
               shr_r := false; shr_s := false |})
    with {| shr_m := Z.pos m; shr_r := false; shr_s := false |}.
  cbn [loc_of_shr_record shr_m round_nearest_even Zdigits2].
  replace (-52 + e + 52)%Z with e by lia.
  rewrite Hc, Z.sub_diag. cbn [shr shr_m].
  by rewrite He.
Qed.

End Rounding.

(** ** The density *)

Lemma scenarioWith_built (ML : MathLib) :
  NewStudentsT (E:=@Reference.engine ML) [zero; zero] (eye 2) five None
  = Ret (Some (scenarioWith ML)).
Proof. apply NewStudentsT_builds; [done|done|]. vm_compute. reflexivity. Qed.

Lemma scenario_LogProb (ML : MathLib) :
  Log one = zero ->
  valid_binary prec emax (Log (five * Pi)%F) = true ->
  LogProb (E:=@Reference.engine ML) (scenarioWith ML) [zero; zero]
  = Ret (Lgamma f3_5 - Lgamma f2_5 - Log (five * Pi))%F.
Proof.
  intros Hlog Hvalid. unfold LogProb.
  change (length [zero; zero] =? dim (scenarioWith ML))%nat with true.
  cbn [negb]. f_equal.
  change (nu (scenarioWith ML)) with five.
  change (of_int (Z.of_nat (dim (scenarioWith ML)))) with two.
  replace (Mahalanobis [zero; zero] (mu (scenarioWith ML))
             (chol (scenarioWith ML))) with zero
    by (vm_compute; reflexivity).
  replace (logSqrtDet (scenarioWith ML)) with zero.
  2:{ cbn. change (S754_finite false 4503599627370496 (-52)) with one.
      rewrite Hlog. vm_compute. reflexivity. }
  replace (one + zero * zero / five)%F with one by (vm_compute; reflexivity).
  rewrite Hlog.
  replace ((five + two) / two)%F with f3_5 by (vm_compute; reflexivity).
  replace (five / two)%F with f2_5 by (vm_compute; reflexivity).
  replace (two / two)%F with one by (vm_compute; reflexivity).
  replace (f3_5 * zero)%F with zero by (vm_compute; reflexivity).
  by rewrite mul_one_l, !sub_zero_r.
Qed.

(** C7: [LogProb] panics on a point of the wrong length; otherwise it
    returns [lgamma((nu+n)/2) - lgamma(nu/2) - n/2 log(nu pi) - logSqrtDet
    - (nu+n)/2 log(1 + m2/nu)], where [m2] is the square of the Mahalanobis
    distance [sqrt((y-mu)' t)], [t] being the solve of [y - mu] against the
    cached factorization; and for [mu = [0, 0]], the identity scale and
    [nu = 5] the value at [[0, 0]] is
    [lgamma(3.5) - lgamma(2.5) - log(5 pi)]. *)
Theorem LogProb_formula `{ML : MathLib} {Cholesky Source : Type}
    `{E : Engine Cholesky} (s : StudentsT Cholesky Source) (y : Vec) :
  (length y <> dim s -> LogProb s y = Panic badInputLength)
  /\ (length y = dim s ->
      LogProb s y
      = Ret (logDensity (nu s) (dim s) (logSqrtDet s)
                        (sqMahalanobis (chol s) (mu s) y)))
  /\ (forall t, SolveVecTo (chol s) (zip_with sub y (mu s)) = Some t ->
      let m := Sqrt (Dot t (zip_with sub y (mu s))) in
      sqMahalanobis (chol s) (mu s) y = (m * m)%F)
  /\ (Log one = zero ->
      valid_binary prec emax (Log (five * Pi)%F) = true ->
      forall s0 : StudentsT Dense unit,
        NewStudentsT (E:=@Reference.engine ML) [zero; zero] (eye 2) five None
        = Ret (Some s0) ->
        LogProb (E:=@Reference.engine ML) s0 [zero; zero]
        = Ret (Lgamma f3_5 - Lgamma f2_5 - Log (five * Pi))%F).
Proof.
  split; [|split; [|split]].
  - intros Hlen. unfold LogProb.
    by destruct (Nat.eqb_spec (length y) (dim s)).
  - intros Hlen. unfold LogProb, logDensity, sqMahalanobis.
    by destruct (Nat.eqb_spec (length y) (dim s)).
  - intros t Ht. unfold sqMahalanobis, Mahalanobis. by rewrite Ht.
  - intros Hlog Hvalid s0 Hs0. rewrite scenarioWith_built in Hs0.
    simplify_eq. by apply scenario_LogProb.
Qed.

Lemma LogProb_formula_witness :
  LogProb (ML:=Reference.math) (E:=refEngine) scenario [zero]
  = Panic badInputLength
  /\ sqMahalanobis (E:=refEngine) (chol scenario) (mu scenario) [one; zero]
     = one
  /\ LogProb (ML:=Reference.math) (E:=refEngine) scenario [zero; zero]
     = Ret (Lgamma (MathLib:=Reference.math) f3_5
            - Lgamma (MathLib:=Reference.math) f2_5
            - Log (MathLib:=Reference.math) (five * Pi))%F.
Proof.
  destruct (LogProb_formula (ML:=Reference.math) (E:=refEngine) scenario [zero])
    as (Hpanic & _).
  destruct (LogProb_formula (ML:=Reference.math) (E:=refEngine) scenario
              [one; zero]) as (_ & _ & Hsq & _).
  destruct (LogProb_formula (ML:=Reference.math) (E:=refEngine) scenario
              [zero; zero]) as (_ & _ & _ & Hscenario).
  split; [apply Hpanic; by vm_compute|]. split.
  - rewrite (Hsq [one; zero]) by (vm_compute; reflexivity).
    vm_compute. reflexivity.
  - apply Hscenario; [vm_compute; reflexivity..|].
    apply scenario_built.
Defined.

(** C10: for a distribution built with [nu = +Inf], both [lgamma((nu+n)/2)]
    and [lgamma(nu/2)] are [lgamma(+Inf) = +Inf], their difference is NaN,
    and [LogProb] and [Prob] return NaN at every point of the right
    length. *)
Theorem LogProb_gaussian_limit `{ML : MathLib} {Cholesky Source : Type}
    `{E : Engine Cholesky} (mu0 : Vec) (sigma0 : SymDense)
    (src0 : option Source) (s : StudentsT Cholesky Source) (y : Vec) :
  Lgamma PosInf = PosInf -> Exp NaN = NaN ->
  NewStudentsT mu0 sigma0 PosInf src0 = Ret (Some s) ->
  length y = length mu0 ->
  let n := of_int (Z.of_nat (dim s)) in
  Lgamma ((nu s + n) / two)%F = PosInf
  /\ Lgamma (nu s / two)%F = PosInf
  /\ (Lgamma ((nu s + n) / two) - Lgamma (nu s / two))%F = NaN
  /\ LogProb s y = Ret NaN
  /\ Prob s y = Ret NaN.
Proof.
  intros Hlg Hexp (c & H0 & Hn & Hf & ->)%NewStudentsT_inv Hlen n.
  subst n. cbn [nu dim built].
  assert (H1 : ((PosInf + of_int (Z.of_nat (length mu0))) / two)%F = PosInf)
    by (by rewrite add_PosInf_of_int).
  assert (H2 : (PosInf / two)%F = PosInf) by done.
  assert (HL : LogProb (built mu0 sigma0 PosInf src0 c) y = Ret NaN).
  { unfold LogProb. cbn [nu dim built].
    destruct (Nat.eqb_spec (length y) (length mu0)); [|done]. cbn [negb].
    by rewrite H1, H2, Hlg. }
  rewrite H1, H2, Hlg. repeat (split; [done|]).
  unfold Prob. rewrite HL. cbn. by rewrite Hexp.
Qed.

Lemma LogProb_gaussian_limit_witness :
  exists s,
    NewStudentsT (E:=refEngine) (Source:=unit) [zero; zero] (eye 2) PosInf None
    = Ret (Some s)
    /\ LogProb (ML:=Reference.math) (E:=refEngine) s [one; two] = Ret NaN
    /\ Prob (ML:=Reference.math) (E:=refEngine) s [one; two] = Ret NaN.
Proof.
  pose (s := built (E:=refEngine) (Source:=unit)
               [zero; zero] (eye 2) PosInf None [[one]; [zero; one]]).
  assert (Hs : NewStudentsT (E:=refEngine) (Source:=unit)
                 [zero; zero] (eye 2) PosInf None = Ret (Some s))
    by (vm_compute; reflexivity).
  exists s. split; [exact Hs|].
  destruct (LogProb_gaussian_limit (ML:=Reference.math) (E:=refEngine)
              [zero; zero] (eye 2) None s [one; two]
              eq_refl eq_refl Hs eq_refl) as (_ & _ & _ & HL & HP).
  split; [exact HL|exact HP].
Defined.

(** ** Sampling *)

Section Sampling.

Context {Cholesky Source RandState : Type}.
Context `{RS : RandSource Source RandState}.

Lemma drawNormals_length (r : option Source) (n : nat) (rs : RandState) :
  length (fst (drawNormals r n rs)) = n.
Proof.
  revert rs. induction n as [|n IH]; intros rs; [done|].
  cbn. destruct (NormFloat64 r rs) as [z rs1].
  specialize (IH rs1). destruct (drawNormals r n rs1) as [zs rs2].
  cbn in *. by rewrite IH.
Qed.

Lemma reuseAs_length (dst : option Vec) (n : nat) (d : Vec) :
  reuseAs dst n = Ret d -> length d = n.
Proof.
  destruct dst as [d0|]; cbn.
  - destruct (Nat.eqb_spec (length d0) n); [|done]. by intros [= <-].
  - intros [= <-]. apply repeat_length.
Qed.

(** The scaling factor at the Gaussian limit, whatever was drawn. *)
Lemma factor_at_PosInf (u : float64) :
  Sqrt (PosInf / u)%F = PosInf \/ Sqrt (PosInf / u)%F = NaN.
Proof. destruct u as [[]|[]| |[] m e]; cbn; auto. Qed.

Lemma scaled_not_finite (f a b : float64) :
  f = PosInf \/ f = NaN -> is_finite (a + f * b)%F = false.
Proof.
  intros [->| ->].
  - destruct a as [[]|[]| |[] ma ea], b as [[]|[]| |[] mb eb]; reflexivity.
  - by destruct a.
Qed.

Lemma AddScaledTo_not_finite (f : float64) (y x : Vec) :
  f = PosInf \/ f = NaN ->
  Forall (fun v => is_finite v = false) (AddScaledTo y f x).
Proof.
  intros Hf. unfold AddScaledTo. revert x.
  induction y as [|a y IH]; intros [|b x]; cbn; constructor; auto.
  by apply scaled_not_finite.
Qed.

End Sampling.

(** C1 (as amended): for every [nu], the Gaussian limit included, [Rand]
    draws the chi-squared variate [u] after the [n] normal draws [z] and
    returns [mu + sqrt(nu/u) * (lower z)]; at [nu = +Inf] the factor
    [sqrt(nu/u)] is [+Inf] or NaN whatever [u] is, so no coordinate of the
    sample is finite. *)
Theorem Rand_always_scales {Cholesky Source RandState : Type}
    `{RS : RandSource Source RandState}
    (s : StudentsT Cholesky Source) (dst : option Vec) (rs : RandState) :
  (dst = None \/ exists d, dst = Some d /\ length d = dim s) ->
  let zr := drawNormals (rnd s) (dim s) rs in
  let ur := ChiSquaredRand (nu s) (src s) (snd zr) in
  let factor := Sqrt (nu s / fst ur)%F in
  let sample := AddScaledTo (mu s) factor (MulVecLower (lower s) (fst zr)) in
  Rand s dst rs = Ret (sample, snd ur)
  /\ (nu s = PosInf ->
      (factor = PosInf \/ factor = NaN)
      /\ Forall (fun v => is_finite v = false) sample).
Proof.
  intros Hdst zr ur factor sample. split.
  - unfold Rand.
    assert (Hre : exists d, reuseAs dst (dim s) = Ret d /\ length d = dim s).
    { destruct Hdst as [->|(d & -> & Hd)]; cbn.
      - eexists. split; [done|]. apply repeat_length.
      - exists d. by rewrite Hd, Nat.eqb_refl. }
    destruct Hre as (d & -> & Hd). cbn [rbind]. rewrite Hd.
    subst sample factor ur zr.
    destruct (drawNormals (rnd s) (dim s) rs) as [z rs1]. cbn [fst snd].
    by destruct (ChiSquaredRand (nu s) (src s) rs1) as [u rs2].
  - intros Hnu.
    assert (Hf : factor = PosInf \/ factor = NaN).
    { subst factor. rewrite Hnu. apply factor_at_PosInf. }
    split; [done|]. by apply AddScaledTo_not_finite.
Qed.

Lemma gaussian1_built :
  NewStudentsT (E:=refEngine) [zero] (eye 1) PosInf None = Ret (Some gaussian1).
Proof. vm_compute. reflexivity. Qed.

Lemma Rand_always_scales_witness :
  Rand (RS:=Reference.script) gaussian1 None [one; one] = Ret ([PosInf], [])
  /\ Forall (fun v => is_finite v = false) [PosInf].
Proof.
  destruct (Rand_always_scales (RS:=Reference.script) gaussian1 None
              [one; one] (or_introl eq_refl)) as [Hrand Hinf].
  split; [exact Hrand|]. exact (proj2 (Hinf eq_refl)).
Defined.

(** C1, as stated, fails: on the one-dimensional standard distribution at
    [nu = +Inf], with the normal draw [z = 1] (so [mu + y = [1]]) the sample
    is not [[1]]: it is [[+Inf]] when the chi-squared draw gives [1], and
    [[NaN]] when it gives [+Inf]; the draw is made, since the script is
    left empty. *)
Lemma Rand_gaussian_limit_not_mu_plus_y :
  zip_with add (mu gaussian1) (MulVecLower (lower gaussian1) [one]) = [one]
  /\ Rand (RS:=Reference.script) gaussian1 None [one; one]
     = Ret ([PosInf], [])
  /\ Rand (RS:=Reference.script) gaussian1 None [one; PosInf]
     = Ret ([NaN], [])
  /\ Rand (RS:=Reference.script) gaussian1 None [one; one]
     <> Ret ([one], [one]).
Proof.
  split; [vm_compute; reflexivity|].
  split; [vm_compute; reflexivity|].
  split; [vm_compute; reflexivity|].
  vm_compute. discriminate.
Qed.

(** ** Running on a store: one step at a time

    The store is kept in the form [h ++ new]: the cells [h] that existed
    before the call and the cells [new] allocated since. *)

Section Steps.

Context {Cholesky Source : Type}.
Abbreviation obj := (obj Cholesky Source).
Abbreviation heap := (list obj).
Implicit Types (h new : heap) (o : obj) (l i : nat).

Lemma step_ret {A B} (a : A) (k : A -> M B) (H : heap) :
  hbind (hret a) k H = k a H.
Proof. done. Qed.

Lemma step_lift {A B} (r : result A) (a : A) (k : A -> M B) (H : heap) :
  r = Ret a -> hbind (lift r) k H = k a H.
Proof. by intros ->. Qed.

Lemma step_lift_panic {A B} (p : panic) (k : A -> M B) (H : heap) :
  hbind (lift (Panic p)) k H = Panic p.
Proof. done. Qed.

Lemma step_field {B} l (k : loc -> M B) (H : heap) :
  hbind (field (Some l)) k H = k l H.
Proof. done. Qed.

Lemma step_alloc {B} o (k : loc -> M B) h new :
  hbind (alloc o) k (h ++ new)
  = k (length h + length new)%nat (h ++ (new ++ [o])).
Proof. unfold hbind, alloc. by rewrite length_app, app_assoc. Qed.

Lemma step_load_new {A B} (p : obj -> option A) (a : A) (k : A -> M B)
    h new i :
  (new !! i) ≫= p = Some a ->
  hbind (loadAs p (length h + i)) k (h ++ new) = k a (h ++ new).
Proof.
  intros Ha. unfold hbind, loadAs.
  rewrite lookup_app_r by lia.
  replace (length h + i - length h)%nat with i by lia. by rewrite Ha.
Qed.

Lemma step_load_old {A B} (p : obj -> option A) (a : A) (k : A -> M B)
    h new l :
  (h !! l) ≫= p = Some a ->
  hbind (loadAs p l) k (h ++ new) = k a (h ++ new).
Proof.
  intros Ha. unfold hbind, loadAs.
  destruct (h !! l) as [o|] eqn:Hl; [|done].
  by rewrite (lookup_app_l_Some _ _ _ _ Hl), Ha.
Qed.

Lemma step_store_new {B} o (k : unit -> M B) h new i :
  (i < length new)%nat ->
  hbind (store (length h + i) o) k (h ++ new) = k tt (h ++ <[i := o]> new).
Proof.
  intros Hi. unfold hbind, store. rewrite length_app.
  destruct (Nat.ltb_spec (length h + i) (length h + length new)); [|lia].
  rewrite insert_app_r_alt by lia.
  by replace (length h + i - length h)%nat with i by lia.
Qed.

Lemma step_store_old {B} o (k : unit -> M B) h new l :
  (l < length h)%nat ->
  hbind (store l o) k (h ++ new) = k tt (<[l := o]> h ++ new).
Proof.
  intros Hl. unfold hbind, store. rewrite length_app.
  destruct (Nat.ltb_spec l (length h + length new)); [|lia].
  by rewrite insert_app_l.
Qed.

Lemma run_start {A} (c : M A) (H : heap) (r : result (A * heap)) :
  c (H ++ []) = r -> c H = r.
Proof. by rewrite app_nil_r. Qed.

Lemma step_assoc {A B C} (c : M A) (k1 : A -> M B) (k2 : B -> M C)
    (H : heap) :
  hbind (hbind c k1) k2 H = hbind c (fun a => hbind (k1 a) k2) H.
Proof. unfold hbind. destruct (c H) as [[a H']|p]; done. Qed.

Lemma step_run {A B} (c : M A) (k : A -> M B) (H H' : heap) (a : A) :
  c H = Ret (a, H') -> hbind c k H = k a H'.
Proof. unfold hbind. by intros ->. Qed.

Lemma step_run_panic {A B} (c : M A) (k : A -> M B) (H : heap) (p : panic) :
  c H = Panic p -> hbind c k H = Panic p.
Proof. unfold hbind. by intros ->. Qed.

(** Steps on a cell that existed before the call. *)

Lemma step_load {A B} (p : obj -> option A) (a : A) (k : A -> M B)
    (G : heap) l :
  (G !! l) ≫= p = Some a -> hbind (loadAs p l) k G = k a G.
Proof. intros Ha. unfold hbind, loadAs. by rewrite Ha. Qed.

Lemma step_store {B} o (k : unit -> M B) (G : heap) l :
  (l < length G)%nat -> hbind (store l o) k G = k tt (<[l := o]> G).
Proof.
  intros Hl. unfold hbind, store.
  by destruct (Nat.ltb_spec l (length G)); [|lia].
Qed.

Lemma lookup_as_insert_eq {A} (p : obj -> option A) (G : heap) l o (a : A) :
  (l < length G)%nat -> p o = Some a -> (<[l := o]> G !! l) ≫= p = Some a.
Proof. intros Hl Ha. by rewrite list_lookup_insert_eq by done. Qed.

Lemma lookup_as_insert_ne {A} (p : obj -> option A) (G : heap) l l' o :
  l <> l' -> (<[l := o]> G !! l') ≫= p = (G !! l') ≫= p.
Proof. intros Hl. by rewrite list_lookup_insert_ne by done. Qed.

End Steps.

Ltac hstep :=
  first
    [ rewrite step_ret
    | rewrite step_field
    | rewrite step_alloc; cbn [length app]
    | erewrite step_load_new by reflexivity
    | erewrite step_load_old by (eassumption || reflexivity)
    | rewrite step_store_new by (cbn [length]; lia); cbn [insert list_insert]
    | erewrite step_lift by (eassumption || reflexivity)
    | rewrite step_lift_panic ];
  cbv beta.

(** Run a store-level function from the start: unfold it, step, and
    follow the branches the hypotheses decide. *)
Ltac hrun f :=
  apply run_start; unfold f;
  repeat first
    [ hstep
    | match goal with
      | Hx : ?c = _ |- context [?c] => rewrite Hx; cbn [negb]
      end ];
  try reflexivity.

Section StoreRuns.

Context {Cholesky Source : Type} `{E : Engine Cholesky}.
Abbreviation obj := (obj Cholesky Source).
Abbreviation heap := (list obj).

(** [NewStudentsT] on the store does what it does on values; the cells it
    allocates come after those of the store it was called on. *)
Lemma hNewStudentsT_run (H : heap) (mu sigma : loc) (mu_v : Vec)
    (sigma_v : SymDense) (nu : float64) (src : option Source) :
  (H !! mu) ≫= asFloats = Some mu_v ->
  (H !! sigma) ≫= asSym = Some sigma_v ->
  match NewStudentsT mu_v sigma_v nu src with
  | Panic p => hNewStudentsT mu sigma nu src H = Panic p
  | Ret None => exists new, hNewStudentsT mu sigma nu src H = Ret (None, H ++ new)
  | Ret (Some d) =>
      hNewStudentsT mu sigma nu src H
      = Ret (Some (length H + 1)%nat, H ++ distCells (length H) d)
  end.
Proof.
  intros Hmu Hsigma. unfold NewStudentsT.
  destruct (length mu_v =? 0)%nat eqn:H0; [hrun @hNewStudentsT|].
  destruct (SymmetricDim sigma_v =? length mu_v)%nat eqn:Hd; cbn [negb];
    [|hrun @hNewStudentsT].
  destruct (Factorize sigma_v) as [c|] eqn:Hf;
    [hrun @hNewStudentsT|eexists; hrun @hNewStudentsT].
Qed.

Lemma hstudentsTConditional_run (H : heap) (observed : list Z) (values : Vec)
    (nu : float64) (mu sigma : loc) (mu_v : Vec) (sigma_v : SymDense) :
  (H !! mu) ≫= asFloats = Some mu_v ->
  (H !! sigma) ≫= asSym = Some sigma_v ->
  match studentsTConditional observed values nu mu_v sigma_v with
  | Panic p => hstudentsTConditional observed values nu mu sigma H = Panic p
  | Ret (nu', None) =>
      exists new,
        hstudentsTConditional observed values nu mu sigma H
        = Ret ((nu', None), H ++ new)
  | Ret (nu', Some (m, a)) =>
      exists new,
        hstudentsTConditional observed values nu mu sigma H
        = Ret ((nu', Some (length H + 0, length H + 2)%nat), H ++ new)
        /\ new !! 0%nat = Some (Floats m)
        /\ new !! 2%nat = Some (SymData a)
  end.
Proof.
  intros Hmu Hsigma. unfold studentsTConditional.
  destruct (length (findUnob observed (length mu_v)) =? 0)%nat eqn:H0;
    [hrun @hstudentsTConditional|].
  destruct (rmapM (index mu_v) _) as [m1|p] eqn:Hm1; cbn [rbind];
    [|hrun @hstudentsTConditional].
  destruct (rmapM _ (zip _ observed)) as [m2|p] eqn:Hm2; cbn [rbind];
    [|hrun @hstudentsTConditional].
  destruct (SubsetSym sigma_v (findUnob _ _)) as [s11|p] eqn:H11; cbn [rbind];
    [|hrun @hstudentsTConditional].
  destruct (SubsetSym sigma_v observed) as [s22|p] eqn:H22; cbn [rbind];
    [|hrun @hstudentsTConditional].
  destruct (Factorize s22) as [c|] eqn:Hf;
    [|eexists; hrun @hstudentsTConditional].
  destruct (SolveVecTo c m2) as [t|] eqn:Ht;
    [|eexists; hrun @hstudentsTConditional].
  destruct (SolveTo c _) as [t3|] eqn:Ht3;
    [|eexists; hrun @hstudentsTConditional].
  destruct (IsInf nu 1) eqn:Hinf;
    (eexists; split; [hrun @hstudentsTConditional|split; reflexivity]).
Qed.

(** Reading a distribution back. *)

Lemma readDist_Some (H : heap) (s : loc) (d : StudentsT Cholesky Source) :
  readDist H s = Some d ->
  exists r lm ls lc ll,
    (H !! s) ≫= asStruct = Some r
    /\ r_mu r = Some lm /\ r_sigma r = Some ls
    /\ r_chol r = Some lc /\ r_lower r = Some ll
    /\ (H !! lm) ≫= asFloats = Some (mu d)
    /\ (H !! ls) ≫= asSym = Some (sigma d)
    /\ (H !! lc) ≫= asChol = Some (chol d)
    /\ (H !! ll) ≫= asDense = Some (lower d)
    /\ r_nu r = nu d /\ r_dim r = dim d /\ r_src r = src d
    /\ r_rnd r = rnd d /\ r_logSqrtDet r = logSqrtDet d.
Proof.
  unfold readDist. intros Hd.
  destruct ((H !! s) ≫= asStruct) as [r|] eqn:Hr; [|done]. cbn in Hd.
  destruct (r_mu r) as [lm|] eqn:Hlm; [|done]. cbn in Hd.
  destruct ((H !! lm) ≫= asFloats) as [m|] eqn:Hm; [|done]. cbn in Hd.
  destruct (r_sigma r) as [ls|] eqn:Hls; [|done]. cbn in Hd.
  destruct ((H !! ls) ≫= asSym) as [a|] eqn:Ha; [|done]. cbn in Hd.
  destruct (r_chol r) as [lc|] eqn:Hlc; [|done]. cbn in Hd.
  destruct ((H !! lc) ≫= asChol) as [c|] eqn:Hc; [|done]. cbn in Hd.
  destruct (r_lower r) as [ll|] eqn:Hll; [|done]. cbn in Hd.
  destruct ((H !! ll) ≫= asDense) as [l|] eqn:Hl; [|done]. cbn in Hd.
  simplify_eq. exists r, lm, ls, lc, ll. cbn. by rewrite Hm, Ha, Hc, Hl.
Qed.

Lemma lookup_as_app {A} (p : obj -> option A) (H new : heap) (l : loc) (a : A) :
  (H !! l) ≫= p = Some a -> ((H ++ new) !! l) ≫= p = Some a.
Proof.
  destruct (H !! l) as [o|] eqn:Hl; [|done].
  by rewrite (lookup_app_l_Some _ _ _ _ Hl).
Qed.

Lemma lookup_as_lt {A} (p : obj -> option A) (H : heap) (l : loc) (a : A) :
  (H !! l) ≫= p = Some a -> (l < length H)%nat.
Proof.
  destruct (H !! l) as [o|] eqn:Hl; [|done]. intros _.
  by apply lookup_lt_Some in Hl.
Qed.

(** Allocation leaves every distribution of the store as it was. *)
Lemma readDist_app (H new : heap) (s : loc) (d : StudentsT Cholesky Source) :
  readDist H s = Some d -> readDist (H ++ new) s = Some d.
Proof.
  intros (r & lm & ls & lc & ll & Hr & Hlm & Hls & Hlc & Hll & Hm & Ha & Hc
          & Hl & Hnu & Hdim & Hsrc & Hrnd & Hdet)%readDist_Some.
  unfold readDist. rewrite (lookup_as_app _ _ _ _ _ Hr). cbn.
  rewrite Hlm, Hls, Hlc, Hll. cbn.
  rewrite (lookup_as_app _ _ _ _ _ Hm), (lookup_as_app _ _ _ _ _ Ha),
    (lookup_as_app _ _ _ _ _ Hc), (lookup_as_app _ _ _ _ _ Hl). cbn.
  rewrite Hnu, Hdim, Hsrc, Hrnd, Hdet. by destruct d.
Qed.

Lemma readDist_distCells (H : heap) (d : StudentsT Cholesky Source) :
  readDist (H ++ distCells (length H) d) (length H + 1) = Some d.
Proof.
  unfold readDist.
  rewrite lookup_app_r by lia.
  replace (length H + 1 - length H)%nat with 1%nat by lia. cbn.
  rewrite !lookup_app_r by lia.
  replace (length H + 0 - length H)%nat with 0%nat by lia.
  replace (length H + 3 - length H)%nat with 3%nat by lia.
  replace (length H + 2 - length H)%nat with 2%nat by lia.
  replace (length H + 4 - length H)%nat with 4%nat by lia.
  cbn. by destruct d.
Qed.

Lemma cells_distCells (H : heap) (d : StudentsT Cholesky Source) :
  cells (H ++ distCells (length H) d) (length H + 1)
  = [length H + 1; length H + 0; length H + 3;
     length H + 2; length H + 4]%nat.
Proof.
  unfold cells. rewrite lookup_app_r by lia.
  by replace (length H + 1 - length H)%nat with 1%nat by lia.
Qed.

(** Overwriting a cell that existed before the build leaves the built
    distribution as it is. *)
Lemma readDist_distCells_insert (H : heap) (d : StudentsT Cholesky Source)
    (l : loc) (o : obj) :
  (l < length H)%nat ->
  readDist (<[l := o]> (H ++ distCells (length H) d)) (length H + 1)
  = Some d.
Proof.
  intros Hl. rewrite insert_app_l by done.
  rewrite <- (length_insert H l o). apply readDist_distCells.
Qed.

(** [ConditionStudentsT] on the store. *)
Lemma hConditionStudentsT_run (H : heap) (s : loc)
    (d : StudentsT Cholesky Source) (observed : list Z) (values : Vec)
    (src1 : option Source) :
  readDist H s = Some d ->
  match ConditionStudentsT d observed values src1 with
  | Panic p => hConditionStudentsT s observed values src1 H = Panic p
  | Ret None =>
      exists new,
        hConditionStudentsT s observed values src1 H = Ret (None, H ++ new)
  | Ret (Some d') =>
      exists new,
        hConditionStudentsT s observed values src1 H
        = Ret (Some (length (H ++ new) + 1)%nat,
               (H ++ new) ++ distCells (length (H ++ new)) d')
  end.
Proof.
  intros (r & lm & ls & lc & ll & Hr & Hlm & Hls & Hlc & Hll & Hm & Ha & Hc
          & Hl & Hnu & Hdim & Hsrc & Hrnd & Hdet)%readDist_Some.
  unfold ConditionStudentsT.
  destruct (length observed =? 0)%nat eqn:H0;
    [unfold hConditionStudentsT; by rewrite H0|].
  destruct (length observed =? length values)%nat eqn:Hlen; cbn [negb];
    [|unfold hConditionStudentsT; by rewrite H0, Hlen].
  destruct (forallb (in_range (dim d)) observed) eqn:Hin; cbn [negb].
  2:{ apply run_start. unfold hConditionStudentsT. rewrite H0, Hlen.
      cbn [negb]. hstep. by rewrite Hdim, Hin. }
  assert (Hpre :
    hConditionStudentsT s observed values src1 H
    = hbind (hstudentsTConditional observed values (nu d) lm ls)
        (fun res => match res with
                    | (_, None) => hret None
                    | (newNu, Some (newMean, newSigma)) =>
                        hNewStudentsT newMean newSigma newNu src1
                    end) H).
  { apply run_start. unfold hConditionStudentsT. rewrite H0, Hlen.
    cbn [negb]. hstep. rewrite Hdim, Hin, Hlm, Hls, Hnu. cbn [negb].
    do 2 hstep. by rewrite app_nil_r. }
  rewrite Hpre. clear Hpre.
  pose proof (hstudentsTConditional_run H observed values (nu d) lm ls
                (mu d) (sigma d) Hm Ha) as Hrun.
  destruct (studentsTConditional observed values (nu d) (mu d) (sigma d))
    as [[nu' [[m a]|]]|p]; cbn [rbind].
  - destruct Hrun as (new & Hrun & Hm' & Ha').
    rewrite (step_run _ _ _ _ _ Hrun).
    pose proof (hNewStudentsT_run (H ++ new) (length H + 0) (length H + 2)
                  m a nu' src1) as Hnew.
    rewrite !lookup_app_r in Hnew by lia.
    replace (length H + 0 - length H)%nat with 0%nat in Hnew by lia.
    replace (length H + 2 - length H)%nat with 2%nat in Hnew by lia.
    rewrite Hm', Ha' in Hnew. specialize (Hnew eq_refl eq_refl).
    destruct (NewStudentsT m a nu' src1) as [[d'|]|p].
    + by exists new.
    + destruct Hnew as (new' & Hnew). exists (new ++ new').
      by rewrite app_assoc.
    + done.
  - destruct Hrun as (new & Hrun). rewrite (step_run _ _ _ _ _ Hrun).
    by exists new.
  - by rewrite (step_run_panic _ _ _ _ Hrun).
Qed.

(** [MarginalStudentsT] on the store. *)
Lemma hMarginalStudentsT_run (H : heap) (s : loc)
    (d : StudentsT Cholesky Source) (vars : list Z) (src1 : option Source) :
  readDist H s = Some d ->
  match MarginalStudentsT d vars src1 with
  | Panic p => hMarginalStudentsT s vars src1 H = Panic p
  | Ret None =>
      exists new, hMarginalStudentsT s vars src1 H = Ret (None, H ++ new)
  | Ret (Some d') =>
      exists new,
        hMarginalStudentsT s vars src1 H
        = Ret (Some (length (H ++ new) + 1)%nat,
               (H ++ new) ++ distCells (length (H ++ new)) d')
  end.
Proof.
  intros (r & lm & ls & lc & ll & Hr & Hlm & Hls & Hlc & Hll & Hm & Ha & Hc
          & Hl & Hnu & Hdim & Hsrc & Hrnd & Hdet)%readDist_Some.
  unfold MarginalStudentsT.
  destruct (rmapM (index (mu d)) vars) as [m|p] eqn:Hmean; cbn [rbind].
  2:{ apply run_start. unfold hMarginalStudentsT. do 2 hstep. rewrite Hlm.
      do 2 hstep. rewrite Hmean. by hstep. }
  destruct (SubsetSym (sigma d) vars) as [a|p] eqn:Hsub; cbn [rbind].
  2:{ apply run_start. unfold hMarginalStudentsT. do 2 hstep. rewrite Hlm.
      do 2 hstep. rewrite Hmean. do 2 hstep. rewrite Hls. do 2 hstep.
      rewrite Hsub. by hstep. }
  assert (Hpre :
    hMarginalStudentsT s vars src1 H
    = hNewStudentsT (length H + 0) (length H + 1) (nu d) src1
        (H ++ [Floats m; SymData a])).
  { apply run_start. unfold hMarginalStudentsT. do 2 hstep. rewrite Hlm.
    do 2 hstep. rewrite Hmean. do 2 hstep. rewrite Hls. do 2 hstep.
    rewrite Hsub, Hnu. by do 2 hstep. }
  rewrite Hpre. clear Hpre.
  pose proof (hNewStudentsT_run (H ++ [Floats m; SymData a])
                (length H + 0) (length H + 1) m a (nu d) src1) as Hnew.
  rewrite !lookup_app_r in Hnew by lia.
  replace (length H + 0 - length H)%nat with 0%nat in Hnew by lia.
  replace (length H + 1 - length H)%nat with 1%nat in Hnew by lia.
  specialize (Hnew eq_refl eq_refl).
  destruct (NewStudentsT m a (nu d) src1) as [[d'|]|p].
  - by exists [Floats m; SymData a].
  - destruct Hnew as (new' & Hnew). exists ([Floats m; SymData a] ++ new').
    by rewrite app_assoc.
  - done.
Qed.

(** The operations that read a distribution. *)

Lemma hLogProb_run `{ML : MathLib} (H : heap) (s y : loc)
    (d : StudentsT Cholesky Source) (y_v : Vec) :
  readDist H s = Some d ->
  (H !! y) ≫= asFloats = Some y_v ->
  hLogProb s y H = match LogProb d y_v with
                   | Ret x => Ret (x, H)
                   | Panic p => Panic p
                   end.
Proof.
  intros (r & lm & ls & lc & ll & Hr & Hlm & Hls & Hlc & Hll & Hm & Ha & Hc
          & Hl & Hnu & Hdim & Hsrc & Hrnd & Hdet)%readDist_Some Hy.
  unfold hLogProb, LogProb.
  rewrite (step_load _ _ _ _ _ Hr), (step_load _ _ _ _ _ Hy), Hdim.
  destruct (negb (length y_v =? dim d)%nat); [done|].
  rewrite Hlm, step_field, (step_load _ _ _ _ _ Hm), Hlc, step_field,
    (step_load _ _ _ _ _ Hc), Hnu, Hdet. done.
Qed.

(** Overwriting a cell that is not one of the distribution's leaves the
    distribution as it is. *)
Lemma readDist_insert (H : heap) (s l : loc) (o : obj)
    (d : StudentsT Cholesky Source) :
  readDist H s = Some d -> l ∉ cells H s ->
  readDist (<[l := o]> H) s = Some d.
Proof.
  intros Hd Hnot. pose proof Hd as Hd0.
  apply readDist_Some in Hd
    as (r & lm & ls & lc & ll & Hr & Hlm & Hls & Hlc & Hll & Hm & Ha & Hc
        & Hl & Hnu & Hdim & Hsrc & Hrnd & Hdet).
  unfold cells in Hnot. rewrite Hr, Hlm, Hls, Hlc, Hll in Hnot. cbn in Hnot.
  rewrite !not_elem_of_cons in Hnot.
  destruct Hnot as (Hs & H1 & H2 & H3 & H4 & _).
  unfold readDist in *.
  rewrite lookup_as_insert_ne by done. rewrite Hr in *. cbn in *.
  rewrite Hlm, Hls, Hlc, Hll in *. cbn in *.
  by rewrite !lookup_as_insert_ne by done.
Qed.

Lemma hMean_run (H : heap) (s : loc) (d : StudentsT Cholesky Source) :
  readDist H s = Some d ->
  hMean s None H = match Mean d None with
                   | Ret v => Ret (length H + 0, H ++ [Floats v])%nat
                   | Panic p => Panic p
                   end
  /\ forall dl v0,
      (H !! dl) ≫= asFloats = Some v0 ->
      hMean s (Some dl) H = match Mean d (Some v0) with
                            | Ret v => Ret (dl, <[dl := Floats v]> H)
                            | Panic p => Panic p
                            end.
Proof.
  intros (r & lm & ls & lc & ll & Hr & Hlm & Hls & Hlc & Hll & Hm & Ha & Hc
          & Hl & Hnu & Hdim & Hsrc & Hrnd & Hdet)%readDist_Some.
  split.
  - apply run_start. unfold hMean, hreuseAs, Mean, reuseAs. cbn [rbind].
    hstep. rewrite Hdim, Hlm. by repeat hstep.
  - intros dl v0 Hv0. unfold hMean, hreuseAs, Mean, reuseAs.
    rewrite (step_load _ _ _ _ _ Hr), step_assoc, (step_load _ _ _ _ _ Hv0).
    rewrite Hdim. destruct (length v0 =? dim d)%nat; [|done]. cbn [rbind].
    rewrite step_ret, Hlm, step_field, (step_load _ _ _ _ _ Hm),
      (step_load _ _ _ _ _ Hv0), step_store by (by eapply lookup_as_lt).
    done.
Qed.

Lemma hCovarianceMatrix_run (H : heap) (st dst : loc)
    (d : StudentsT Cholesky Source) (d0 : SymDense) :
  readDist H st = Some d ->
  (H !! dst) ≫= asSym = Some d0 ->
  dst ∉ cells H st ->
  hCovarianceMatrix st dst H
  = match CovarianceMatrix d d0 with
    | Ret a => Ret (tt, <[dst := SymData a]> H)
    | Panic p => Panic p
    end.
Proof.
  intros Hd Hdst Hnot. pose proof (lookup_as_lt _ _ _ _ Hdst) as Hlt.
  apply readDist_Some in Hd
    as (r & lm & ls & lc & ll & Hr & Hlm & Hls & Hlc & Hll & Hm & Ha & Hc
        & Hl & Hnu & Hdim & Hsrc & Hrnd & Hdet).
  unfold cells in Hnot. rewrite Hr, Hlm, Hls, Hlc, Hll in Hnot. cbn in Hnot.
  rewrite !not_elem_of_cons in Hnot.
  destruct Hnot as (Hs & H1 & H2 & H3 & H4 & _).
  unfold hCovarianceMatrix, CovarianceMatrix.
  rewrite (step_load _ _ _ _ _ Hr), (step_load _ _ _ _ _ Hdst), Hdim, Hls, Hnu.
  destruct (IsEmpty d0).
  - cbn [rbind]. rewrite step_store, step_field by done.
    erewrite step_load by (by rewrite lookup_as_insert_ne).
    erewrite step_load by (by apply lookup_as_insert_eq).
    rewrite step_store by (by rewrite length_insert).
    erewrite step_load
      by (apply lookup_as_insert_eq; [by rewrite length_insert|done]).
    unfold store. rewrite !length_insert.
    destruct (Nat.ltb_spec dst (length H)); [|lia].
    by rewrite !list_insert_insert_eq.
  - destruct (negb (SymmetricDim d0 =? dim d)%nat); [done|].
    cbn [rbind]. rewrite step_ret, step_field.
    rewrite (step_load _ _ _ _ _ Ha), (step_load _ _ _ _ _ Hdst).
    rewrite step_store by done.
    erewrite step_load by (by apply lookup_as_insert_eq).
    unfold store. rewrite !length_insert.
    destruct (Nat.ltb_spec dst (length H)); [|lia].
    by rewrite !list_insert_insert_eq.
Qed.

End StoreRuns.

Section StoreRand.

Context {Cholesky Source RandState : Type}.
Context `{RS : RandSource Source RandState}.
Abbreviation obj := (obj Cholesky Source).
Abbreviation heap := (list obj).

(** [Rand] on the store: the sample goes to a new cell, or overwrites the
    destination it was given. *)
Lemma hRand_run (H : heap) (s : loc) (d : StudentsT Cholesky Source)
    (rs : RandState) :
  readDist H s = Some d ->
  hRand s None rs H
  = match Rand d None rs with
    | Ret (v, rs') => Ret ((length H + 0, rs'), H ++ [Floats v])%nat
    | Panic p => Panic p
    end
  /\ forall dl v0,
      (H !! dl) ≫= asFloats = Some v0 ->
      dl ∉ cells H s ->
      hRand s (Some dl) rs H
      = match Rand d (Some v0) rs with
        | Ret (v, rs') => Ret ((dl, rs'), <[dl := Floats v]> H)
        | Panic p => Panic p
        end.
Proof.
  intros Hd. pose proof Hd as Hd0.
  apply readDist_Some in Hd
    as (r & lm & ls & lc & ll & Hr & Hlm & Hls & Hlc & Hll & Hm & Ha & Hc
        & Hl & Hnu & Hdim & Hsrc & Hrnd & Hdet).
  split.
  - apply run_start. unfold hRand, hreuseAs, Rand, reuseAs. cbn [rbind].
    do 3 hstep. rewrite Hdim, Hrnd, Hnu, Hsrc, Hll, Hlm.
    destruct (drawNormals (rnd d) (length (make (dim d))) rs) as [z rs1].
    repeat hstep.
    destruct (ChiSquaredRand (nu d) (src d) rs1) as [u rs2].
    by repeat hstep.
  - intros dl v0 Hv0 Hnot. pose proof (lookup_as_lt _ _ _ _ Hv0) as Hlt.
    unfold cells in Hnot. rewrite Hr, Hlm, Hls, Hlc, Hll in Hnot.
    cbn in Hnot. rewrite !not_elem_of_cons in Hnot.
    destruct Hnot as (Hs & H1 & H2 & H3 & H4 & _).
    unfold hRand, hreuseAs, Rand, reuseAs.
    rewrite (step_load _ _ _ _ _ Hr), step_assoc, (step_load _ _ _ _ _ Hv0).
    rewrite Hdim. destruct (length v0 =? dim d)%nat; [|done]. cbn [rbind].
    rewrite step_ret, (step_load _ _ _ _ _ Hv0), Hrnd, Hnu, Hsrc, Hll, Hlm.
    destruct (drawNormals (rnd d) (length v0) rs) as [z rs1].
    rewrite step_store, step_field by done.
    erewrite step_load by (by rewrite lookup_as_insert_ne).
    erewrite step_load by (by apply lookup_as_insert_eq).
    rewrite step_store by (by rewrite length_insert).
    destruct (ChiSquaredRand (nu d) (src d) rs1) as [u rs2].
    rewrite step_field.
    erewrite step_load by (by rewrite !lookup_as_insert_ne).
    erewrite step_load
      by (apply lookup_as_insert_eq; [by rewrite length_insert|done]).
    rewrite step_store by (by rewrite !length_insert).
    by rewrite !list_insert_insert_eq.
Qed.

End StoreRand.

(** ** Distributions are never written to *)

Section Ownership.

Context {Cholesky Source RandState : Type}.
Context `{ML : MathLib} `{E : Engine Cholesky}
        `{RS : RandSource Source RandState}.
Abbreviation obj := (obj Cholesky Source).
Abbreviation heap := (list obj).

Lemma untouched_app {A} (H new : list A) : untouched H (H ++ new).
Proof. intros l Hl. by rewrite lookup_app_l. Qed.

Lemma untouched_trans_app {A} (H new new' : list A) :
  untouched H ((H ++ new) ++ new').
Proof. rewrite <- app_assoc. apply untouched_app. Qed.

Lemma fresh_distCells (H new : heap) (d' : StudentsT Cholesky Source) :
  fresh_dist H ((H ++ new) ++ distCells (length (H ++ new)) d')
             (length (H ++ new) + 1).
Proof.
  unfold fresh_dist. rewrite cells_distCells, length_app.
  repeat constructor; lia.
Qed.

Lemma returns_new_dist_intro (H new : heap) (s : loc)
    (d d' : StudentsT Cholesky Source) pure :
  readDist H s = Some d -> pure = Ret (Some d') ->
  returns_new_dist H s d pure (Some (length (H ++ new) + 1)%nat)
    ((H ++ new) ++ distCells (length (H ++ new)) d').
Proof.
  intros Hd Hp. split; [|split].
  - rewrite <- app_assoc. by apply readDist_app.
  - apply untouched_trans_app.
  - exists d'. split; [done|]. split; [apply readDist_distCells|].
    split; [apply fresh_distCells|].
    apply readDist_Some in Hd as (r & _ & _ & _ & _ & Hr & _).
    apply lookup_as_lt in Hr. rewrite length_app. lia.
Qed.

Lemma hConditionStudentsT_owns (H H' : heap) (s : loc)
    (d : StudentsT Cholesky Source) observed values src1 r :
  readDist H s = Some d ->
  hConditionStudentsT s observed values src1 H = Ret (r, H') ->
  returns_new_dist H s d (ConditionStudentsT d observed values src1) r H'.
Proof.
  intros Hd Hrun.
  pose proof (hConditionStudentsT_run H s d observed values src1 Hd) as Hc.
  destruct (ConditionStudentsT d observed values src1) as [[d'|]|p].
  - destruct Hc as (new & Hc). rewrite Hc in Hrun. simplify_eq.
    by apply returns_new_dist_intro.
  - destruct Hc as (new & Hc). rewrite Hc in Hrun. simplify_eq.
    split; [by apply readDist_app|]. split; [apply untouched_app|done].
  - by rewrite Hc in Hrun.
Qed.

Lemma hMarginalStudentsT_owns (H H' : heap) (s : loc)
    (d : StudentsT Cholesky Source) vars src1 r :
  readDist H s = Some d ->
  hMarginalStudentsT s vars src1 H = Ret (r, H') ->
  returns_new_dist H s d (MarginalStudentsT d vars src1) r H'.
Proof.
  intros Hd Hrun.
  pose proof (hMarginalStudentsT_run H s d vars src1 Hd) as Hc.
  destruct (MarginalStudentsT d vars src1) as [[d'|]|p].
  - destruct Hc as (new & Hc). rewrite Hc in Hrun. simplify_eq.
    by apply returns_new_dist_intro.
  - destruct Hc as (new & Hc). rewrite Hc in Hrun. simplify_eq.
    split; [by apply readDist_app|]. split; [apply untouched_app|done].
  - by rewrite Hc in Hrun.
Qed.

(** The builder copies: its result lives in new cells, and overwriting a
    cell of the caller afterwards does not change it. *)
Lemma hNewStudentsT_copies (H H' : heap) (mu sigma : loc) (mu_v : Vec)
    (sigma_v : SymDense) nu src0 (s : loc) :
  (H !! mu) ≫= asFloats = Some mu_v ->
  (H !! sigma) ≫= asSym = Some sigma_v ->
  hNewStudentsT mu sigma nu src0 H = Ret (Some s, H') ->
  exists d,
    NewStudentsT mu_v sigma_v nu src0 = Ret (Some d)
    /\ readDist H' s = Some d /\ untouched H H' /\ fresh_dist H H' s
    /\ forall l o, (l < length H)%nat -> readDist (<[l := o]> H') s = Some d.
Proof.
  intros Hmu Hsigma Hrun.
  pose proof (hNewStudentsT_run H mu sigma mu_v sigma_v nu src0 Hmu Hsigma)
    as Hc.
  destruct (NewStudentsT mu_v sigma_v nu src0) as [[d|]|p].
  - rewrite Hc in Hrun. simplify_eq. exists d. split; [done|].
    split; [apply readDist_distCells|]. split; [apply untouched_app|].
    split.
    + pose proof (fresh_distCells H [] d) as Hf.
      by rewrite !app_nil_r in Hf.
    + intros l o Hl. by apply readDist_distCells_insert.
  - destruct Hc as (new & Hc). by rewrite Hc in Hrun.
  - by rewrite Hc in Hrun.
Qed.

End Ownership.

(** C9: on a store, [NewStudentsT] puts the distribution in cells of its
    own: it writes to no cell of the caller, and overwriting a cell of the
    caller afterwards leaves the distribution as built.
    [ConditionStudentsT] and [MarginalStudentsT] leave the distribution
    they are called on as it is, write to no cell that existed, and return
    the distribution of the same call on values in cells allocated by the
    call.  [LogProb] leaves the store as it is; [Mean], [CovarianceMatrix]
    and [Rand] write to their destination only (a new cell when none is
    given), which is no cell of the distribution. *)
Theorem distributions_are_never_written
    {Cholesky Source RandState : Type} `{ML : MathLib} `{E : Engine Cholesky}
    `{RS : RandSource Source RandState} (H : list (obj Cholesky Source)) :
  (forall mu sigma mu_v sigma_v nu src0 s H',
     (H !! mu) ≫= asFloats = Some mu_v ->
     (H !! sigma) ≫= asSym = Some sigma_v ->
     hNewStudentsT mu sigma nu src0 H = Ret (Some s, H') ->
     exists d,
       NewStudentsT mu_v sigma_v nu src0 = Ret (Some d)
       /\ readDist H' s = Some d /\ untouched H H' /\ fresh_dist H H' s
       /\ forall l o, (l < length H)%nat ->
            readDist (<[l := o]> H') s = Some d)
  /\ (forall s d, readDist H s = Some d ->
      (forall observed values src1 r H',
         hConditionStudentsT s observed values src1 H = Ret (r, H') ->
         returns_new_dist H s d
           (ConditionStudentsT d observed values src1) r H')
      /\ (forall vars src1 r H',
         hMarginalStudentsT s vars src1 H = Ret (r, H') ->
         returns_new_dist H s d (MarginalStudentsT d vars src1) r H')
      /\ (forall y y_v x H',
         (H !! y) ≫= asFloats = Some y_v ->
         hLogProb s y H = Ret (x, H') -> H' = H /\ LogProb d y_v = Ret x)
      /\ (forall l H',
         hMean s None H = Ret (l, H') ->
         readDist H' s = Some d /\ untouched H H')
      /\ (forall dl v0 l H',
         (H !! dl) ≫= asFloats = Some v0 -> dl ∉ cells H s ->
         hMean s (Some dl) H = Ret (l, H') ->
         readDist H' s = Some d /\ forall c, c <> dl -> H' !! c = H !! c)
      /\ (forall dst d0 H',
         (H !! dst) ≫= asSym = Some d0 -> dst ∉ cells H s ->
         hCovarianceMatrix s dst H = Ret (tt, H') ->
         readDist H' s = Some d /\ forall c, c <> dst -> H' !! c = H !! c)
      /\ (forall rs l rs' H',
         hRand s None rs H = Ret ((l, rs'), H') ->
         readDist H' s = Some d /\ untouched H H')
      /\ (forall dl v0 rs l rs' H',
         (H !! dl) ≫= asFloats = Some v0 -> dl ∉ cells H s ->
         hRand s (Some dl) rs H = Ret ((l, rs'), H') ->
         readDist H' s = Some d /\ forall c, c <> dl -> H' !! c = H !! c)).
Proof.
  split.
  { intros mu sigma mu_v sigma_v nu src0 s H' Hmu Hsigma Hrun.
    by eapply hNewStudentsT_copies. }
  intros s d Hd.
  split; [intros ? ? ? ? ?; by apply hConditionStudentsT_owns|].
  split; [intros ? ? ? ?; by apply hMarginalStudentsT_owns|].
  split.
  { intros y y_v x H' Hy Hrun. rewrite (hLogProb_run H s y d y_v Hd Hy) in Hrun.
    destruct (LogProb d y_v); by simplify_eq. }
  destruct (hMean_run H s d Hd) as [HmeanN HmeanS].
  split.
  { intros l H' Hrun. rewrite HmeanN in Hrun.
    destruct (Mean d None); simplify_eq.
    split; [by apply readDist_app|apply untouched_app]. }
  split.
  { intros dl v0 l H' Hv0 Hnot Hrun. rewrite (HmeanS dl v0 Hv0) in Hrun.
    destruct (Mean d (Some v0)); simplify_eq.
    split; [by apply readDist_insert|].
    intros c Hc. by rewrite list_lookup_insert_ne. }
  split.
  { intros dst d0 H' Hdst Hnot Hrun.
    rewrite (hCovarianceMatrix_run H s dst d d0 Hd Hdst Hnot) in Hrun.
    destruct (CovarianceMatrix d d0); simplify_eq.
    split; [by apply readDist_insert|].
    intros c Hc. by rewrite list_lookup_insert_ne. }
  split.
  { intros rs l rs' H' Hrun.
    destruct (hRand_run H s d rs Hd) as [HrandN _]. rewrite HrandN in Hrun.
    destruct (Rand d None rs) as [[v rs1]|]; simplify_eq.
    split; [by apply readDist_app|apply untouched_app]. }
  intros dl v0 rs l rs' H' Hv0 Hnot Hrun.
  destruct (hRand_run H s d rs Hd) as [_ HrandD].
  rewrite (HrandD dl v0 Hv0 Hnot) in Hrun.
  destruct (Rand d (Some v0) rs) as [[v rs1]|]; simplify_eq.
  split; [by apply readDist_insert|].
  intros c Hc. by rewrite list_lookup_insert_ne.
Qed.

Lemma distributions_are_never_written_witness :
  hNewStudentsT (E:=refEngine) 0 1 five None callerStore
  = Ret (Some 3%nat, builtStore)
  /\ readDist builtStore 3 = Some scenario
  /\ readDist (<[0%nat := Floats [one; one]]> builtStore) 3 = Some scenario
  /\ exists H2,
       hConditionStudentsT (E:=refEngine) 3 [0%Z] [one] None builtStore
       = Ret (Some 18%nat, H2)
       /\ readDist H2 3 = Some scenario /\ untouched builtStore H2
       /\ fresh_dist builtStore H2 18.
Proof.
  assert (Hbuild : hNewStudentsT (E:=refEngine) 0 1 five None callerStore
                   = Ret (Some 3%nat, builtStore))
    by (vm_compute; reflexivity).
  destruct (distributions_are_never_written (ML:=Reference.math)
              (E:=refEngine) (RS:=Reference.script) callerStore)
    as [Hnew _].
  destruct (Hnew 0%nat 1%nat [zero; zero] (eye 2) five None 3%nat builtStore
              eq_refl eq_refl Hbuild) as (d & Hd & Hread & _ & _ & Hlater).
  rewrite scenario_built in Hd. 
  injection Hd as <-.
  split; [exact Hbuild|]. split; [exact Hread|].
  split; [apply Hlater; cbn; lia|].
  destruct (distributions_are_never_written (ML:=Reference.math)
              (E:=refEngine) (RS:=Reference.script) builtStore)
    as [_ Hops].
  destruct (Hops 3%nat scenario Hread) as (Hcond & _).
  destruct (hConditionStudentsT (E:=refEngine) 3 [0%Z] [one] None builtStore)
    as [[[s'|] H2]|p] eqn:Hrun; [|vm_compute in Hrun; discriminate..].
  assert (s' = 18%nat) as -> by (vm_compute in Hrun; congruence).
  exists H2. split; [reflexivity|].
  destruct (Hcond [0%Z] [one] None (Some 18%nat) H2 Hrun)
    as (Hkeep & Hunt & d' & _ & _ & Hfresh & _).
  exact (conj Hkeep (conj Hunt Hfresh)).
Defined.

(** * Further properties of the package *)

Section Complement.

Lemma StronglySorted_iota_lt (a n : nat) :
  StronglySorted Z.lt (Z.of_nat <$> seq a n).
Proof.
  revert a. induction n as [|n IH]; intros a; cbn; constructor; [apply IH|].
  apply Forall_forall. intros x (k & -> & Hk%elem_of_seq)%list_elem_of_fmap. lia.
Qed.

Lemma findUnob_sorted (observed : list Z) (dim : nat) :
  StronglySorted Z.lt (findUnob observed dim).
Proof.
  rewrite findUnob_filter. apply StronglySorted_filter, StronglySorted_iota_lt.
Qed.

Lemma NoDup_iota (n : nat) : NoDup (Z.of_nat <$> seq 0 n).
Proof.
  apply NoDup_fmap_2; [intros ? ?; lia|apply NoDup_seq].
Qed.

Lemma in_range_iota (n : nat) (x : Z) :
  in_range n x = true <-> x ∈ (Z.of_nat <$> seq 0 n).
Proof.
  unfold in_range. rewrite andb_true_iff, Z.leb_le, Z.ltb_lt, list_elem_of_fmap.
  split.
  - intros [H0 H1]. exists (Z.to_nat x). split; [lia|]. apply elem_of_seq. lia.
  - intros (k & -> & Hk%elem_of_seq). lia.
Qed.

Lemma findUnob_length (observed : list Z) (dim : nat) :
  NoDup observed -> forallb (in_range dim) observed = true ->
  length (findUnob observed dim) = (dim - length observed)%nat.
Proof.
  intros Hnd Hin. rewrite findUnob_filter.
  pose proof (filter_app_complement (fun i => i ∈ observed)
                (Z.of_nat <$> seq 0 dim)) as Hperm.
  apply Permutation_length in Hperm.
  rewrite length_app, length_fmap, length_seq in Hperm.
  assert (Hob : filter (fun i => i ∈ observed) (Z.of_nat <$> seq 0 dim)
                ≡ₚ observed).
  { apply NoDup_Permutation; [apply NoDup_filter, NoDup_iota|done|].
    intros x. rewrite list_elem_of_filter, <- in_range_iota.
    split; [by intros [? _]|]. intros Hx. split; [done|].
    rewrite forallb_forall in Hin. apply Hin. by apply list_elem_of_In. }
  apply Permutation_length in Hob. lia.
Qed.

Lemma findUnob_nil (observed : list Z) (dim : nat) :
  findUnob observed dim = []
  <-> forall i, (i < dim)%nat -> Z.of_nat i ∈ observed.
Proof.
  split.
  - intros Hnil i Hi. destruct (decide (Z.of_nat i ∈ observed)) as [|Hn]; [done|].
    assert (Z.of_nat i ∈ findUnob observed dim) as Hel
      by (apply findUnob_elem; split; [lia|done]).
    rewrite Hnil in Hel. by apply elem_of_nil in Hel.
  - intros Hall. destruct (findUnob observed dim) as [|x l] eqn:Hf; [done|].
    assert (x ∈ findUnob observed dim) as [Hx Hn]%findUnob_elem
      by (rewrite Hf; left).
    destruct Hn. replace x with (Z.of_nat (Z.to_nat x)) by lia.
    apply Hall. lia.
Qed.

End Complement.

(** X1: [findUnob] returns the complement of the observed indices in
    [0, dim): exactly the indices of [0, dim) that are not observed, in
    strictly ascending order and so without repeats, whatever [observed]
    holds (repeated or out-of-range values included).  The result depends
    on the set of observed values only, and for distinct in-range values it
    has [dim - len(observed)] entries. *)
Theorem findUnob_complement (observed : list Z) (dim : nat) :
  (forall x, x ∈ findUnob observed dim
             <-> (0 <= x < Z.of_nat dim)%Z /\ x ∉ observed)
  /\ StronglySorted Z.lt (findUnob observed dim)
  /\ NoDup (findUnob observed dim)
  /\ (length (findUnob observed dim) <= dim)%nat
  /\ (NoDup observed -> forallb (in_range dim) observed = true ->
      length (findUnob observed dim) = (dim - length observed)%nat)
  /\ (forall observed', (forall x, x ∈ observed <-> x ∈ observed') ->
      findUnob observed' dim = findUnob observed dim).
Proof.
  split; [intros x; apply findUnob_elem|].
  split; [apply findUnob_sorted|].
  split.
  { rewrite findUnob_filter. apply NoDup_filter, NoDup_iota. }
  split.
  { rewrite findUnob_filter.
    etrans; [apply length_filter|]. by rewrite length_fmap, length_seq. }
  split; [apply findUnob_length|].
  intros observed' Hsame. rewrite !findUnob_filter.
  apply list_filter_iff. intros x. by rewrite Hsame.
Qed.

Section ConditioningOutcomes.

Context {Cholesky Source : Type} `{E : Engine Cholesky}.

(** The parameters the conditional update hands to the builder are of the
    size of the unobserved coordinates. *)
Lemma conditionalParams_sizes (observed : list Z) (values : Vec)
    (nu0 : float64) (mu0 : Vec) (sigma0 : SymDense) nu1 m S :
  conditionalParams observed values nu0 mu0 sigma0 = (nu1, Some (m, S)) ->
  length m = length (findUnob observed (length mu0))
  /\ SymmetricDim S = length m.
Proof.
  unfold conditionalParams.
  destruct (Factorize _) as [c|]; [|done].
  destruct (SolveVecTo c _) as [t|]; [|done].
  destruct (SolveTo c _) as [tm|]; [|done].
  destruct (IsInf nu0 1); intros [= <- <- <-];
    rewrite condMean_length;
    unfold condScale, condSchur, ScaleSym, SymmetricDim;
    by rewrite ?symOf_N.
Qed.

Lemma ConditionStudentsT_no_observed (s : StudentsT Cholesky Source)
    (values : Vec) (src1 : option Source) :
  ConditionStudentsT s [] values src1 = Panic noObservedValue.
Proof. done. Qed.

Lemma ConditionStudentsT_bad_length (s : StudentsT Cholesky Source)
    (observed : list Z) (values : Vec) (src1 : option Source) :
  observed <> [] -> length observed <> length values ->
  ConditionStudentsT s observed values src1 = Panic badInputLength.
Proof.
  intros Hne Hlen. unfold ConditionStudentsT.
  destruct (Nat.eqb_spec (length observed) 0) as [H0|H0];
    [by apply nil_length_inv in H0|].
  by destruct (Nat.eqb_spec (length observed) (length values)).
Qed.

Lemma ConditionStudentsT_out_of_bounds (s : StudentsT Cholesky Source)
    (observed : list Z) (values : Vec) (src1 : option Source) :
  observed <> [] -> length observed = length values ->
  forallb (in_range (dim s)) observed = false ->
  ConditionStudentsT s observed values src1 = Panic observedOutOfBounds.
Proof.
  intros Hne Hlen Hin. unfold ConditionStudentsT.
  destruct (Nat.eqb_spec (length observed) 0) as [H0|H0];
    [by apply nil_length_inv in H0|].
  by rewrite <- Hlen, Nat.eqb_refl, Hin.
Qed.

Lemma ConditionStudentsT_all_observed (s : StudentsT Cholesky Source)
    (observed : list Z) (values : Vec) (src1 : option Source) :
  length (mu s) = dim s ->
  observed <> [] -> length observed = length values ->
  forallb (in_range (dim s)) observed = true ->
  findUnob observed (dim s) = [] ->
  ConditionStudentsT s observed values src1 = Panic allDimensionsObserved.
Proof.
  intros Hmu Hne Hlen Hin Hun. unfold ConditionStudentsT.
  destruct (Nat.eqb_spec (length observed) 0) as [H0|H0];
    [by apply nil_length_inv in H0|].
  rewrite <- Hlen, Nat.eqb_refl, Hin. cbn [negb].
  unfold studentsTConditional. by rewrite Hmu, Hun.
Qed.

Lemma ConditionStudentsT_returns (s : StudentsT Cholesky Source)
    (observed : list Z) (values : Vec) (src1 : option Source) :
  length (mu s) = dim s -> symN (sigma s) = dim s ->
  observed <> [] -> length values = length observed ->
  forallb (in_range (dim s)) observed = true ->
  findUnob observed (dim s) <> [] ->
  exists r, ConditionStudentsT s observed values src1 = Ret r.
Proof.
  intros Hmu Hsig Hne Hlen Hin Hun. rewrite ConditionStudentsT_params by done.
  destruct (conditionalParams _ _ _ _ _) as [nu1 [[m S]|]] eqn:Hp;
    [|by eexists].
  apply conditionalParams_sizes in Hp as [Hm HS]. rewrite Hmu in Hm.
  destruct (NewStudentsT m S nu1 src1) as [r|p] eqn:Hnew; [by eexists|].
  assert (panics (NewStudentsT m S nu1 src1)) as Hpan by (by rewrite Hnew).
  apply NewStudentsT_panics in Hpan as [H0|Hd]; [|done].
  rewrite Hm in H0. by apply nil_length_inv in H0.
Qed.


End ConditioningOutcomes.

(** X2: the panics of [ConditionStudentsT], in the order the code checks:
    no observed value; then a length mismatch between [observed] and
    [values]; then an index outside the distribution; then, in
    [studentsTConditional], every coordinate observed.  In every other case
    the call returns: it raises no run-time index panic and none of the
    builder's panics. *)
Theorem ConditionStudentsT_panic_cases {Cholesky Source : Type}
    `{E : Engine Cholesky}
    (s : StudentsT Cholesky Source) (observed : list Z) (values : Vec)
    (src1 : option Source) :
  length (mu s) = dim s -> symN (sigma s) = dim s ->
  (observed = [] ->
   ConditionStudentsT s observed values src1 = Panic noObservedValue)
  /\ (observed <> [] -> length observed <> length values ->
      ConditionStudentsT s observed values src1 = Panic badInputLength)
  /\ (observed <> [] -> length observed = length values ->
      forallb (in_range (dim s)) observed = false ->
      ConditionStudentsT s observed values src1 = Panic observedOutOfBounds)
  /\ (observed <> [] -> length observed = length values ->
      forallb (in_range (dim s)) observed = true ->
      (forall i, (i < dim s)%nat -> Z.of_nat i ∈ observed) ->
      ConditionStudentsT s observed values src1
      = Panic allDimensionsObserved)
  /\ (observed <> [] -> length observed = length values ->
      forallb (in_range (dim s)) observed = true ->
      (exists i, (i < dim s)%nat /\ Z.of_nat i ∉ observed) ->
      exists r, ConditionStudentsT s observed values src1 = Ret r).
Proof.
  intros Hmu Hsig. split; [intros ->; apply ConditionStudentsT_no_observed|].
  split; [apply ConditionStudentsT_bad_length|].
  split; [apply ConditionStudentsT_out_of_bounds|].
  split.
  { intros Hne Hlen Hin Hall.
    by apply ConditionStudentsT_all_observed, findUnob_nil. }
  intros Hne Hlen Hin (i & Hi & Hno).
  apply ConditionStudentsT_returns; try done.
  rewrite findUnob_nil. intros Hall. by apply Hno, Hall.
Qed.

Lemma ConditionStudentsT_panic_cases_witness :
  ConditionStudentsT (E:=refEngine) scenario [] [] None
  = Panic noObservedValue
  /\ ConditionStudentsT (E:=refEngine) scenario [0%Z] [] None
     = Panic badInputLength
  /\ ConditionStudentsT (E:=refEngine) scenario [2%Z] [one] None
     = Panic observedOutOfBounds
  /\ ConditionStudentsT (E:=refEngine) scenario [1%Z; 0%Z] [one; one] None
     = Panic allDimensionsObserved
  /\ exists r, ConditionStudentsT (E:=refEngine) scenario [1%Z] [one] None
               = Ret r.
Proof.
  pose proof (fun o v => ConditionStudentsT_panic_cases (E:=refEngine)
                scenario o v None eq_refl eq_refl) as H.
  split; [apply (H [] []); reflexivity|].
  split; [apply (H [0%Z] []); [discriminate|cbn; lia]|].
  split; [apply (H [2%Z] [one]); [discriminate|reflexivity|reflexivity]|].
  split.
  - apply (H [1%Z; 0%Z] [one; one]); [discriminate|reflexivity|reflexivity|].
    intros [|[|i]] Hi; [apply list_elem_of_In; cbn; lia..|]. cbn in Hi. lia.
  - apply (H [1%Z] [one]); [discriminate|reflexivity|reflexivity|].
    exists 0%nat. split; [cbn; lia|]. rewrite list_elem_of_In. cbn. lia.
Defined.

(** X3: a one-dimensional distribution cannot be conditioned: every call
    of [ConditionStudentsT] on it panics, since an index inside it observes
    its only coordinate. *)
Theorem ConditionStudentsT_one_dimensional {Cholesky Source : Type}
    `{E : Engine Cholesky}
    (s : StudentsT Cholesky Source) (observed : list Z) (values : Vec)
    (src1 : option Source) :
  dim s = 1%nat -> length (mu s) = dim s ->
  panics (ConditionStudentsT s observed values src1).
Proof.
  intros Hdim Hmu.
  destruct observed as [|o observed];
    [by rewrite ConditionStudentsT_no_observed|].
  destruct (decide (length (o :: observed) = length values)) as [Hlen|Hlen];
    [|by rewrite ConditionStudentsT_bad_length].
  destruct (forallb (in_range (dim s)) (o :: observed)) eqn:Hin;
    [|by rewrite ConditionStudentsT_out_of_bounds].
  rewrite ConditionStudentsT_all_observed; try done.
  apply findUnob_nil. intros i Hi.
  cbn [forallb] in Hin. apply andb_prop in Hin as [Ho _].
  unfold in_range in Ho. apply andb_prop in Ho as [H0%Z.leb_le H1%Z.ltb_lt].
  replace (Z.of_nat i) with o by lia. left.
Qed.

Lemma ConditionStudentsT_one_dimensional_witness :
  panics (ConditionStudentsT (E:=refEngine) gaussian1 [0%Z] [one] None).
Proof.
  exact (ConditionStudentsT_one_dimensional (E:=refEngine) gaussian1
           [0%Z] [one] None eq_refl eq_refl).
Defined.

Section Constructors.

Context {Cholesky Source : Type} `{E : Engine Cholesky}.

Lemma built_Invariant mu0 sigma0 nu0 (src0 : option Source) (c : Cholesky) :
  length mu0 <> 0%nat -> SymmetricDim sigma0 = length mu0 ->
  Invariant (built mu0 sigma0 nu0 src0 c).
Proof.
  intros H0 Hd. unfold Invariant. cbn.
  repeat split; try done. apply symOf_WF.
Qed.

Lemma NewStudentsT_Invariant mu0 sigma0 nu0 (src0 : option Source) s :
  NewStudentsT mu0 sigma0 nu0 src0 = Ret (Some s) -> Invariant s.
Proof.
  intros (c & H0 & Hd & _ & ->)%NewStudentsT_inv. by apply built_Invariant.
Qed.

(** A distribution returned by [ConditionStudentsT] or [MarginalStudentsT]
    comes out of the builder. *)
Lemma ConditionStudentsT_from_builder (s0 : StudentsT Cholesky Source)
    observed values src1 s :
  ConditionStudentsT s0 observed values src1 = Ret (Some s) ->
  exists m S nu1, NewStudentsT m S nu1 src1 = Ret (Some s).
Proof.
  unfold ConditionStudentsT.
  destruct (length observed =? 0)%nat; [done|].
  destruct (negb _); [done|]. destruct (negb _); [done|].
  destruct (studentsTConditional _ _ _ _ _) as [[nu1 [[m S]|]]|]; cbn;
    [|done..].
  intros Hnew. by exists m, S, nu1.
Qed.

Lemma MarginalStudentsT_from_builder (s0 : StudentsT Cholesky Source)
    vars src1 s :
  MarginalStudentsT s0 vars src1 = Ret (Some s) ->
  exists m S, NewStudentsT m S (nu s0) src1 = Ret (Some s).
Proof.
  unfold MarginalStudentsT.
  destruct (rmapM _ _) as [m|]; [|done]. cbn.
  destruct (SubsetSym _ _) as [S|]; [|done]. cbn.
  intros Hnew. by exists m, S.
Qed.

End Constructors.

(** X4: every distribution returned by [NewStudentsT],
    [ConditionStudentsT] or [MarginalStudentsT] satisfies [Invariant]: its
    dimension is positive and is the length of [mu] and the size of
    [sigma], [sigma] is stored whole, the generator is bound to the source,
    and the lower factor and the log-determinant term are those of the
    cached factorization. *)
Theorem constructors_establish_Invariant {Cholesky Source : Type}
    `{E : Engine Cholesky} (s : StudentsT Cholesky Source) :
  (forall mu0 sigma0 nu0 src0,
     NewStudentsT mu0 sigma0 nu0 src0 = Ret (Some s) -> Invariant s)
  /\ (forall s0 observed values src1,
     ConditionStudentsT s0 observed values src1 = Ret (Some s) ->
     Invariant s)
  /\ (forall s0 vars src1,
     MarginalStudentsT s0 vars src1 = Ret (Some s) -> Invariant s).
Proof.
  split; [intros ? ? ? ?; apply NewStudentsT_Invariant|].
  split.
  - intros s0 observed values src1
      (m & S & nu1 & Hnew)%ConditionStudentsT_from_builder.
    by eapply NewStudentsT_Invariant.
  - intros s0 vars src1 (m & S & Hnew)%MarginalStudentsT_from_builder.
    by eapply NewStudentsT_Invariant.
Qed.

Section ConditionalSize.

Context {Cholesky Source : Type} `{E : Engine Cholesky}.


End ConditionalSize.



(** X6: at [nu = +Inf] the conditional update is the Gaussian one: when the
    factorization of [S22], the two solves and the builder succeed,
    [ConditionStudentsT] returns the distribution of mean [mu1 + S21' t]
    and of scale the Schur complement [S11 - S21' tm], not rescaled, with
    [nu] still [+Inf]; and a returned distribution always arises this
    way. *)
Theorem ConditionStudentsT_gaussian_limit {Cholesky Source : Type}
    `{E : Engine Cholesky}
    (s : StudentsT Cholesky Source) (observed : list Z) (values : Vec)
    (src1 : option Source) :
  length (mu s) = dim s -> symN (sigma s) = dim s ->
  observed <> [] -> length values = length observed ->
  forallb (in_range (dim s)) observed = true ->
  findUnob observed (dim s) <> [] ->
  nu s = PosInf ->
  let d := condDiff (mu s) observed values in
  (forall c t tm s',
     Factorize (subSym (sigma s) observed) = Some c ->
     SolveVecTo c d = Some t ->
     SolveTo c (condBlock (mu s) (sigma s) observed) = Some tm ->
     NewStudentsT (condMean (mu s) (sigma s) observed t)
                  (condSchur (mu s) (sigma s) observed tm)
                  PosInf src1 = Ret (Some s') ->
     ConditionStudentsT s observed values src1 = Ret (Some s'))
  /\ (forall s',
     ConditionStudentsT s observed values src1 = Ret (Some s') ->
     exists c t tm,
       Factorize (subSym (sigma s) observed) = Some c
       /\ SolveVecTo c d = Some t
       /\ SolveTo c (condBlock (mu s) (sigma s) observed) = Some tm
       /\ mu s' = condMean (mu s) (sigma s) observed t
       /\ sigma s' = condSchur (mu s) (sigma s) observed tm
       /\ nu s' = PosInf).
Proof.
  intros Hmu Hsig Hne Hlen Hin Hun Hnu d.
  rewrite ConditionStudentsT_params by done.
  unfold conditionalParams. fold d. rewrite Hnu. cbn [IsInf Z.ltb Z.compare negb].
  split.
  - intros c t tm s' Hc Ht Htm Hs'. by rewrite Hc, Ht, Htm.
  - intros s'. destruct (Factorize _) as [c|] eqn:Hc; [|done].
    destruct (SolveVecTo c d) as [t|] eqn:Ht; [|done].
    destruct (SolveTo c _) as [tm|] eqn:Htm; [|done].
    intros (c' & _ & _ & _ & ->)%NewStudentsT_inv.
    exists c, t, tm. repeat (split; [done|]).
    split; [|done]. cbn. apply symOf_WF.
Qed.

Lemma ConditionStudentsT_gaussian_limit_witness :
  exists s',
    ConditionStudentsT (E:=refEngine) gaussian2 [0%Z] [one] None
    = Ret (Some s')
    /\ mu s' = [zero] /\ sigma s' = eye 1 /\ nu s' = PosInf.
Proof.
  pose (s' := built (E:=refEngine) (Source:=unit)
                [zero] (eye 1) PosInf None [[one]]).
  exists s'. split; [|by vm_compute].
  refine (proj1 (ConditionStudentsT_gaussian_limit (E:=refEngine) gaussian2
                   [0%Z] [one] None _ _ _ _ _ _ _)
                [[one]] [one] [[zero]] s' _ _ _ _);
    try (vm_compute; reflexivity); try discriminate.
Defined.

(** X7: on valid input, [ConditionStudentsT] returns [nil, false] exactly
    when a numerical step fails: the factorization of [S22], one of the two
    solves against it, or the factorization of the new scale matrix in the
    builder. *)
Theorem ConditionStudentsT_failure {Cholesky Source : Type}
    `{E : Engine Cholesky}
    (s : StudentsT Cholesky Source) (observed : list Z) (values : Vec)
    (src1 : option Source) :
  length (mu s) = dim s -> symN (sigma s) = dim s ->
  observed <> [] -> length values = length observed ->
  forallb (in_range (dim s)) observed = true ->
  findUnob observed (dim s) <> [] ->
  let d := condDiff (mu s) observed values in
  let S22 := subSym (sigma s) observed in
  let S21 := condBlock (mu s) (sigma s) observed in
  ConditionStudentsT s observed values src1 = Ret None
  <-> Factorize S22 = None
      \/ (exists c, Factorize S22 = Some c
                    /\ (SolveVecTo c d = None \/ SolveTo c S21 = None))
      \/ (exists c t tm,
            Factorize S22 = Some c /\ SolveVecTo c d = Some t
            /\ SolveTo c S21 = Some tm
            /\ Factorize (if IsInf (nu s) 1
                          then condSchur (mu s) (sigma s) observed tm
                          else condScale (nu s) (mu s) (sigma s) observed
                                         values t tm) = None).
Proof.
  intros Hmu Hsig Hne Hlen Hin Hun d S22 S21.
  rewrite ConditionStudentsT_params by done.
  destruct (conditionalParams _ _ _ _ _) as [nu1 [[m S]|]] eqn:Hp.
  - pose proof (conditionalParams_sizes _ _ _ _ _ _ _ _ Hp) as [Hm HS].
    rewrite Hmu in Hm.
    assert (H0 : length m <> 0%nat).
    { rewrite Hm. by intros ?%nil_length_inv. }
    unfold conditionalParams in Hp. fold d S22 S21 in Hp.
    destruct (Factorize S22) as [c|] eqn:Hc; [|done].
    destruct (SolveVecTo c d) as [t|] eqn:Ht; [|done].
    destruct (SolveTo c S21) as [tm|] eqn:Htm; [|done].
    assert (HSeq : S = if IsInf (nu s) 1
                       then condSchur (mu s) (sigma s) observed tm
                       else condScale (nu s) (mu s) (sigma s) observed
                                      values t tm).
    { by destruct (IsInf (nu s) 1); injection Hp as _ _ <-. }
    split.
    + intros Hnone. right. right. exists c, t, tm. repeat (split; [done|]).
      rewrite <- HSeq.
      destruct (Factorize S) as [c'|] eqn:Hc'; [|done].
      by rewrite (NewStudentsT_builds m S nu1 src1 c') in Hnone.
    + intros [?|[(c' & ? & [?|?])|(c' & t' & tm' & ? & ? & ? & HF)]];
        simplify_eq. by apply NewStudentsT_fails.
  - split; [|done]. intros _.
    unfold conditionalParams in Hp. fold d S22 S21 in Hp.
    destruct (Factorize S22) as [c|] eqn:Hc; [|by left].
    right. left. exists c. split; [done|].
    destruct (SolveVecTo c d) as [t|] eqn:Ht; [|by left].
    destruct (SolveTo c S21) as [tm|] eqn:Htm; [|by right].
    by destruct (IsInf (nu s) 1).
Qed.

Lemma ConditionStudentsT_failure_witness :
  ConditionStudentsT (E:=refEngine) scenario [0%Z; 0%Z] [one; one] None
  = Ret None
  /\ Factorize (Engine:=refEngine) (subSym (sigma scenario) [0%Z; 0%Z]) = None.
Proof.
  assert (HF : Factorize (Engine:=refEngine)
                 (subSym (sigma scenario) [0%Z; 0%Z]) = None)
    by (vm_compute; reflexivity).
  split; [|exact HF].
  refine (proj2 (ConditionStudentsT_failure (E:=refEngine) scenario
                   [0%Z; 0%Z] [one; one] None _ _ _ _ _ _) (or_introl HF));
    try (vm_compute; reflexivity); discriminate.
Defined.

Section Marginals.

Context {Cholesky Source : Type} `{E : Engine Cholesky}.

Lemma rmapM_index_panics {A} (l : list A) (idx : list Z) :
  forallb (in_range (length l)) idx = false ->
  rmapM (index l) idx = Panic indexOutOfRange.
Proof.
  induction idx as [|i idx IH]; [done|]. cbn [forallb rmapM].
  destruct (in_range (length l) i) eqn:Hi; cbn [andb].
  - intros Hidx. destruct (index_in_range l i Hi) as [x ->]. cbn [rbind].
    by rewrite (IH Hidx).
  - intros _. by rewrite (index_out_of_range l i Hi).
Qed.

Lemma pick_length (mu0 : Vec) (idx : list Z) :
  length (pick mu0 idx) = length idx.
Proof. unfold pick. by rewrite length_map. Qed.

Lemma pick_nth (mu0 : Vec) (idx : list Z) (i : nat) :
  (i < length idx)%nat ->
  nth i (pick mu0 idx) zero = nth (Z.to_nat (nth i idx 0%Z)) mu0 zero.
Proof.
  intros Hi. unfold pick.
  rewrite (nth_indep _ zero (nth (Z.to_nat 0%Z) mu0 zero))
    by (by rewrite length_map).
  apply (map_nth (fun i => nth (Z.to_nat i) mu0 zero)).
Qed.

Lemma At_subSym (a : SymDense) (idx : list Z) (i j : nat) :
  (i < length idx)%nat -> (j < length idx)%nat ->
  At (subSym a idx) i j
  = At a (Z.to_nat (nth i idx 0%Z)) (Z.to_nat (nth j idx 0%Z)).
Proof.
  intros Hi Hj. unfold subSym.
  destruct (Nat.le_gt_cases i j) as [Hij|Hij].
  - by rewrite At_symOf.
  - rewrite At_sym, At_symOf by lia. apply At_sym.
Qed.

Lemma subSym_N (a : SymDense) (idx : list Z) :
  symN (subSym a idx) = length idx.
Proof. done. Qed.

(** What the marginal hands to the builder. *)
Lemma MarginalStudentsT_params (s : StudentsT Cholesky Source)
    (vars : list Z) (src1 : option Source) :
  length (mu s) = dim s -> symN (sigma s) = dim s ->
  forallb (in_range (dim s)) vars = true ->
  MarginalStudentsT s vars src1
  = NewStudentsT (pick (mu s) vars) (subSym (sigma s) vars) (nu s) src1.
Proof.
  intros Hmu Hsig Hin. unfold MarginalStudentsT.
  rewrite rmapM_index_pick by (by rewrite Hmu). cbn [rbind].
  by rewrite SubsetSym_subSym by (by rewrite Hsig).
Qed.

Lemma MarginalStudentsT_out_of_range (s : StudentsT Cholesky Source)
    (vars : list Z) (src1 : option Source) :
  length (mu s) = dim s ->
  forallb (in_range (dim s)) vars = false ->
  MarginalStudentsT s vars src1 = Panic indexOutOfRange.
Proof.
  intros Hmu Hin. unfold MarginalStudentsT.
  by rewrite rmapM_index_panics by (by rewrite Hmu).
Qed.

Lemma throughIndices_length (vs ws : list Z) :
  length (throughIndices vs ws) = length ws.
Proof. unfold throughIndices. by rewrite length_map. Qed.

Lemma throughIndices_nth (vs ws : list Z) (i : nat) :
  (i < length ws)%nat ->
  nth i (throughIndices vs ws) 0%Z = nth (Z.to_nat (nth i ws 0%Z)) vs 0%Z.
Proof.
  intros Hi. unfold throughIndices.
  rewrite (nth_indep _ 0%Z (nth (Z.to_nat 0%Z) vs 0%Z))
    by (by rewrite length_map).
  apply (map_nth (fun w => nth (Z.to_nat w) vs 0%Z)).
Qed.

Lemma in_range_nth (n : nat) (ws : list Z) (i : nat) :
  forallb (in_range n) ws = true -> (i < length ws)%nat ->
  (Z.to_nat (nth i ws 0%Z) < n)%nat /\ in_range n (nth i ws 0%Z) = true.
Proof.
  intros Hin Hi. rewrite forallb_forall in Hin.
  assert (in_range n (nth i ws 0%Z) = true) as Hr by (by apply Hin, nth_In).
  split; [|done]. unfold in_range in Hr.
  apply andb_prop in Hr as [H0%Z.leb_le H1%Z.ltb_lt]. lia.
Qed.

Lemma throughIndices_in_range (n : nat) (vs ws : list Z) :
  forallb (in_range n) vs = true ->
  forallb (in_range (length vs)) ws = true ->
  forallb (in_range n) (throughIndices vs ws) = true.
Proof.
  intros Hvs Hws. apply forallb_forall. intros x Hx.
  apply (In_nth _ _ 0%Z) in Hx as (i & Hi & <-).
  rewrite throughIndices_length in Hi. rewrite throughIndices_nth by done.
  apply in_range_nth; [done|]. by apply in_range_nth.
Qed.

Lemma pick_through (mu0 : Vec) (vs ws : list Z) :
  forallb (in_range (length vs)) ws = true ->
  pick (pick mu0 vs) ws = pick mu0 (throughIndices vs ws).
Proof.
  intros Hws. unfold pick at 1 3, throughIndices. rewrite map_map.
  apply map_ext_in. intros w Hw. rewrite forallb_forall in Hws.
  specialize (Hws w Hw). unfold in_range in Hws.
  apply andb_prop in Hws as [H0%Z.leb_le H1%Z.ltb_lt].
  by rewrite pick_nth by lia.
Qed.

Lemma subSym_through (a : SymDense) (vs ws : list Z) :
  forallb (in_range (length vs)) ws = true ->
  subSym (subSym a vs) ws = subSym a (throughIndices vs ws).
Proof.
  intros Hws. unfold subSym at 1 3. rewrite throughIndices_length.
  apply symOf_ext. intros i j Hij Hj.
  rewrite !throughIndices_nth by lia.
  apply At_subSym; by apply in_range_nth; [|lia].
Qed.

End Marginals.

(** X8: [MarginalStudentsT] panics with a run-time index error on a
    variable outside the distribution, and it panics on no variable;
    otherwise it returns [nil, false] when the
    factorization of the sub-matrix fails, and else the distribution of
    dimension [len(vars)] with the receiver's [nu], the given source,
    [mu'[i] = mu[vars[i]]] and [sigma'(i, j) = sigma(vars[i], vars[j])], in
    the order of [vars]. *)
Theorem MarginalStudentsT_outcomes {Cholesky Source : Type}
    `{E : Engine Cholesky}
    (s : StudentsT Cholesky Source) (vars : list Z) (src1 : option Source) :
  length (mu s) = dim s -> symN (sigma s) = dim s ->
  (forallb (in_range (dim s)) vars = false ->
   MarginalStudentsT s vars src1 = Panic indexOutOfRange)
  /\ (vars = [] -> panics (MarginalStudentsT s vars src1))
  /\ (vars <> [] -> forallb (in_range (dim s)) vars = true ->
      (Factorize (subSym (sigma s) vars) = None ->
       MarginalStudentsT s vars src1 = Ret None)
      /\ (forall c, Factorize (subSym (sigma s) vars) = Some c ->
          exists s',
            MarginalStudentsT s vars src1 = Ret (Some s')
            /\ dim s' = length vars /\ nu s' = nu s /\ src s' = src1
            /\ chol s' = c
            /\ mu s' = pick (mu s) vars
            /\ sigma s' = subSym (sigma s) vars
            /\ (forall i, (i < length vars)%nat ->
                nth i (mu s') zero
                = nth (Z.to_nat (nth i vars 0%Z)) (mu s) zero)
            /\ (forall i j, (i < length vars)%nat -> (j < length vars)%nat ->
                At (sigma s') i j
                = At (sigma s) (Z.to_nat (nth i vars 0%Z))
                               (Z.to_nat (nth j vars 0%Z))))).
Proof.
  intros Hmu Hsig. split; [by apply MarginalStudentsT_out_of_range|].
  split; [by intros ->|].
  intros Hne Hin. rewrite MarginalStudentsT_params by done.
  assert (H0 : length (pick (mu s) vars) <> 0%nat).
  { rewrite pick_length. by intros ?%nil_length_inv. }
  assert (Hd : SymmetricDim (subSym (sigma s) vars)
               = length (pick (mu s) vars)) by (by rewrite pick_length).
  split; [by apply NewStudentsT_fails|].
  intros c Hc. eexists. split; [by apply NewStudentsT_builds|]. cbn.
  rewrite pick_length.
  assert (Hsub : symOf (length vars) (At (subSym (sigma s) vars))
                 = subSym (sigma s) vars) by apply symOf_At.
  rewrite Hsub. repeat (split; [done|]).
  split; [intros i Hi; by apply pick_nth|].
  intros i j Hi Hj. by apply At_subSym.
Qed.

Lemma MarginalStudentsT_outcomes_witness :
  (exists s', MarginalStudentsT (E:=refEngine) scenario12 [1%Z; 0%Z] None
              = Ret (Some s')
              /\ mu s' = [two; one] /\ dim s' = 2%nat)
  /\ panics (MarginalStudentsT (E:=refEngine) scenario12 [] None)
  /\ MarginalStudentsT (E:=refEngine) scenario12 [2%Z] None
     = Panic indexOutOfRange.
Proof.
  destruct (MarginalStudentsT_outcomes (E:=refEngine) scenario12 [1%Z; 0%Z]
              None eq_refl eq_refl) as (_ & _ & Hok).
  destruct (Hok ltac:(discriminate) eq_refl) as [_ Hsome].
  destruct (Hsome [[one]; [zero; one]] ltac:(vm_compute; reflexivity))
    as (s' & Hrun & Hdim & _ & _ & _ & Hm & _).
  split.
  { exists s'. split; [exact Hrun|]. split; [exact Hm|exact Hdim]. }
  split.
  - by apply (MarginalStudentsT_outcomes (E:=refEngine) scenario12 [] None
                eq_refl eq_refl).
  - by apply (MarginalStudentsT_outcomes (E:=refEngine) scenario12 [2%Z] None
                eq_refl eq_refl).
Defined.

(** X9: marginals compose: the marginal over [ws] of the marginal over
    [vs] is the marginal of the original over the indices [vs[w]], with the
    same outcome (distribution, failure or panic). *)
Theorem MarginalStudentsT_compose {Cholesky Source : Type}
    `{E : Engine Cholesky}
    (s s1 : StudentsT Cholesky Source) (vs ws : list Z)
    (src1 src2 : option Source) :
  length (mu s) = dim s -> symN (sigma s) = dim s ->
  MarginalStudentsT s vs src1 = Ret (Some s1) ->
  forallb (in_range (length vs)) ws = true ->
  MarginalStudentsT s1 ws src2
  = MarginalStudentsT s (throughIndices vs ws) src2.
Proof.
  intros Hmu Hsig Hs1 Hws.
  destruct (forallb (in_range (dim s)) vs) eqn:Hvs;
    [|by rewrite MarginalStudentsT_out_of_range in Hs1].
  rewrite MarginalStudentsT_params in Hs1 by done.
  apply NewStudentsT_inv in Hs1 as (c & H0 & Hd & _ & ->).
  rewrite pick_length in H0, Hd.
  rewrite (MarginalStudentsT_params s)
    by (try done; by apply throughIndices_in_range).
  rewrite MarginalStudentsT_params; cbn [mu sigma dim nu built];
    rewrite ?pick_length, ?symOf_N; try done.
  unfold SymmetricDim in Hd. rewrite Hd.
  assert (Hsub : symOf (length vs) (At (subSym (sigma s) vs))
                 = subSym (sigma s) vs) by apply symOf_At.
  by rewrite Hsub, pick_through, subSym_through.
Qed.

Lemma MarginalStudentsT_compose_witness :
  exists s1,
    MarginalStudentsT (E:=refEngine) scenario12 [1%Z; 0%Z] None
    = Ret (Some s1)
    /\ MarginalStudentsT (E:=refEngine) s1 [1%Z] None
       = MarginalStudentsT (E:=refEngine) scenario12 [0%Z] None.
Proof.
  pose (s1 := built (E:=refEngine) (Source:=unit)
                [two; one] (eye 2) five None [[one]; [zero; one]]).
  assert (Hrun : MarginalStudentsT (E:=refEngine) scenario12 [1%Z; 0%Z] None
                 = Ret (Some s1)) by (vm_compute; reflexivity).
  exists s1. split; [exact Hrun|].
  exact (MarginalStudentsT_compose (E:=refEngine) scenario12 s1
           [1%Z; 0%Z] [1%Z] None None eq_refl eq_refl Hrun eq_refl).
Defined.

Section Single.

Context {Cholesky Source : Type} `{E : Engine Cholesky}.

Lemma index_nth (l : Vec) (i : Z) :
  in_range (length l) i = true -> index l i = Ret (nth (Z.to_nat i) l zero).
Proof.
  intros Hi. unfold in_range in Hi.
  apply andb_prop in Hi as [H0%Z.leb_le H1%Z.ltb_lt].
  rewrite <- (Z2Nat.id i) at 1 by done. apply index_of_nat.
  destruct (nth_lookup_or_length l (Z.to_nat i) zero) as [?|?]; [done|lia].
Qed.

End Single.

(** X10: [MarginalStudentsTSingle] panics on an index outside the
    distribution; otherwise it returns, without any factorization, the
    univariate distribution with [Mu = mu[i]], [Sigma = sqrt(sigma(i, i))],
    the receiver's [nu] and the given source, which are the parameters of
    the one-variable [MarginalStudentsT] whenever that one succeeds. *)
Theorem MarginalStudentsTSingle_spec {Cholesky Source : Type}
    `{E : Engine Cholesky}
    (s : StudentsT Cholesky Source) (i : Z) (src1 : option Source) :
  length (mu s) = dim s -> symN (sigma s) = dim s ->
  (in_range (dim s) i = false ->
   MarginalStudentsTSingle s i src1 = Panic indexOutOfRange)
  /\ (in_range (dim s) i = true ->
      exists m,
        MarginalStudentsTSingle s i src1 = Ret m
        /\ distuv.Mu m = nth (Z.to_nat i) (mu s) zero
        /\ distuv.Sigma m = Sqrt (At (sigma s) (Z.to_nat i) (Z.to_nat i))
        /\ distuv.Nu m = nu s /\ distuv.Src m = src1
        /\ forall s1,
             MarginalStudentsT s [i] src1 = Ret (Some s1) ->
             mu s1 = [distuv.Mu m]
             /\ distuv.Sigma m = Sqrt (At (sigma s1) 0 0)
             /\ nu s1 = distuv.Nu m /\ src s1 = distuv.Src m).
Proof.
  intros Hmu Hsig. unfold MarginalStudentsTSingle, AtChecked. split.
  - intros Hi. by rewrite index_out_of_range by (by rewrite Hmu).
  - intros Hi. rewrite index_nth by (by rewrite Hmu). cbn [rbind].
    rewrite Hsig, Hi. cbn [andb rbind]. eexists. split; [done|]. cbn.
    repeat (split; [done|]).
    intros s1 Hs1. rewrite MarginalStudentsT_params in Hs1
      by (try done; cbn [forallb]; by rewrite Hi).
    apply NewStudentsT_inv in Hs1 as (c & _ & _ & _ & ->). cbn.
    by repeat split.
Qed.

Lemma MarginalStudentsTSingle_spec_witness :
  (exists m, MarginalStudentsTSingle scenario12 1 None = Ret m
             /\ distuv.Mu m = two /\ distuv.Sigma m = one
             /\ distuv.Nu m = five)
  /\ MarginalStudentsTSingle scenario12 2 None = Panic indexOutOfRange.
Proof.
  destruct (MarginalStudentsTSingle_spec (E:=refEngine) scenario12 1 None
              eq_refl eq_refl) as [_ Hin].
  destruct (MarginalStudentsTSingle_spec (E:=refEngine) scenario12 2 None
              eq_refl eq_refl) as [Hout _].
  split; [|exact (Hout eq_refl)].
  destruct (Hin eq_refl) as (m & Hrun & HMu & HSigma & HNu & _).
  exists m. split; [exact Hrun|]. rewrite HMu, HSigma, HNu.
  repeat split; vm_compute; reflexivity.
Defined.

(** X11: on a built distribution, [Mean] returns the location vector given
    to the builder, into a new slice or over a destination of the right
    length whatever it held, and panics on a destination of another length;
    [Nu] and [Dim] return the builder's [nu] and [len(mu)]. *)
Theorem Mean_returns_mu {Cholesky Source : Type} `{E : Engine Cholesky}
    (mu0 : Vec) (sigma0 : SymDense) (nu0 : float64) (src0 : option Source)
    (s : StudentsT Cholesky Source) :
  NewStudentsT mu0 sigma0 nu0 src0 = Ret (Some s) ->
  Mean s None = Ret mu0
  /\ (forall d, length d = length mu0 -> Mean s (Some d) = Ret mu0)
  /\ (forall d, length d <> length mu0 ->
      Mean s (Some d) = Panic badOutputLength)
  /\ Nu s = nu0 /\ Dim s = length mu0.
Proof.
  intros (c & H0 & Hd & _ & ->)%NewStudentsT_inv.
  unfold Mean, reuseAs, Nu, Dim. cbn [dim mu nu built rbind].
  split; [by rewrite copy_make|].
  split.
  - intros d Hlen. rewrite Hlen, Nat.eqb_refl. cbn [rbind]. f_equal.
    unfold copy. rewrite Hlen, firstn_all, skipn_all2 by lia.
    apply app_nil_r.
  - split; [|done]. intros d Hlen.
    by destruct (Nat.eqb_spec (length d) (length mu0)).
Qed.

Lemma Mean_returns_mu_witness :
  Mean scenario12 None = Ret [one; two]
  /\ Mean scenario12 (Some [five; five]) = Ret [one; two]
  /\ Mean scenario12 (Some [five]) = Panic badOutputLength.
Proof.
  assert (Hb : NewStudentsT (E:=refEngine) [one; two] (eye 2) five None
               = Ret (Some scenario12)) by (vm_compute; reflexivity).
  destruct (Mean_returns_mu (E:=refEngine) [one; two] (eye 2) five None
              scenario12 Hb) as (Hnil & Hdst & Hbad & _).
  split; [exact Hnil|]. split; [exact (Hdst [five; five] eq_refl)|].
  apply Hbad. cbn. lia.
Defined.

Section CovarianceEdge.

Context {Cholesky Source : Type}.

Lemma mul_PosInf_not_finite (x : float64) :
  is_finite (PosInf * x)%F = false.
Proof. by destruct x as [| [|] | |]. Qed.

Lemma At_symOf_sym n (f : nat -> nat -> float64) i j :
  (forall a b, f a b = f b a) -> (i < n)%nat -> (j < n)%nat ->
  At (symOf n f) i j = f i j.
Proof.
  intros Hf Hi Hj. destruct (Nat.le_gt_cases i j) as [Hij|Hij].
  - by rewrite At_symOf.
  - rewrite At_sym, At_symOf by lia. apply Hf.
Qed.

Lemma CovarianceMatrix_panics_iff (st : StudentsT Cholesky Source) dst :
  panics (CovarianceMatrix st dst)
  <-> IsEmpty dst = false /\ SymmetricDim dst <> dim st.
Proof.
  unfold CovarianceMatrix. destruct (IsEmpty dst); cbn.
  - split; [done|]. by intros [? _].
  - destruct (Nat.eqb_spec (SymmetricDim dst) (dim st)); cbn.
    + split; [done|]. by intros [_ ?].
    + done.
Qed.

End CovarianceEdge.

(** X12: [CovarianceMatrix] panics exactly on a non-empty destination of
    the wrong size, whatever [nu] is: at [nu = 2] it returns the matrix of
    the entries [+Inf * sigma(i, j)], none of which is finite. *)
Theorem CovarianceMatrix_never_checks_nu {Cholesky Source : Type}
    (st : StudentsT Cholesky Source) (dst : SymDense) :
  (panics (CovarianceMatrix st dst)
   <-> IsEmpty dst = false /\ SymmetricDim dst <> dim st)
  /\ (symN (sigma st) = dim st ->
      IsEmpty dst = true \/ SymmetricDim dst = dim st ->
      nu st = two ->
      exists C, CovarianceMatrix st dst = Ret C
        /\ forall i j, (i < dim st)%nat -> (j < dim st)%nat ->
             At C i j = (PosInf * At (sigma st) i j)%F
             /\ is_finite (At C i j) = false).
Proof.
  split; [apply CovarianceMatrix_panics_iff|].
  intros Hsig Hdst Hnu. eexists. split; [by apply CovarianceMatrix_scaled|].
  intros i j Hi Hj. rewrite Hnu.
  rewrite At_symOf_sym; [|by intros a b; rewrite (At_sym _ a b)|done..].
  replace (two / (two - two))%F with PosInf by (by vm_compute).
  split; [done|apply mul_PosInf_not_finite].
Qed.

(** X13: taking a marginal commutes with [Mean] and [CovarianceMatrix]:
    the mean of the marginal is the mean of the original at [vars], and its
    covariance is the sub-matrix of the original's covariance at [vars],
    entry for entry. *)
Theorem MarginalStudentsT_commutes {Cholesky Source : Type}
    `{E : Engine Cholesky}
    (s s1 : StudentsT Cholesky Source) (vars : list Z)
    (src1 : option Source) :
  length (mu s) = dim s -> symN (sigma s) = dim s ->
  MarginalStudentsT s vars src1 = Ret (Some s1) ->
  exists m C,
    Mean s None = Ret m /\ CovarianceMatrix s (NewSymDense 0) = Ret C
    /\ Mean s1 None = Ret (pick m vars)
    /\ CovarianceMatrix s1 (NewSymDense 0) = Ret (subSym C vars).
Proof.
  intros Hmu Hsig Hs1.
  destruct (forallb (in_range (dim s)) vars) eqn:Hvs;
    [|by rewrite MarginalStudentsT_out_of_range in Hs1].
  rewrite MarginalStudentsT_params in Hs1 by done.
  apply NewStudentsT_inv in Hs1 as (c & H0 & Hd & _ & ->).
  rewrite pick_length in H0, Hd. unfold SymmetricDim in Hd.
  eexists _, _. split.
  { unfold Mean, reuseAs. cbn [rbind]. by rewrite copy_make. }
  split; [apply CovarianceMatrix_scaled; [done|by left]|].
  split.
  { unfold Mean, reuseAs. cbn [rbind dim mu built].
    by rewrite copy_make by done. }
  rewrite CovarianceMatrix_scaled; cbn [dim sigma nu built];
    rewrite ?symOf_N, ?pick_length; [|done|by left].
  f_equal. unfold subSym. cbn [symN]. apply symOf_ext. intros i j Hij Hj.
  rewrite !(At_symOf _ _ i j) by (rewrite ?symOf_N; lia).
  rewrite At_symOf_sym; [done|by intros a b; rewrite (At_sym _ a b)|..];
    by apply in_range_nth; [|lia].
Qed.

Lemma MarginalStudentsT_commutes_witness :
  exists s1,
    MarginalStudentsT (E:=refEngine) scenario12 [1%Z] None = Ret (Some s1)
    /\ Mean s1 None = Ret [two]
    /\ exists C, CovarianceMatrix scenario12 (NewSymDense 0) = Ret C
                 /\ CovarianceMatrix s1 (NewSymDense 0)
                    = Ret (subSym C [1%Z]).
Proof.
  pose (s1 := built (E:=refEngine) (Source:=unit)
                [two] (eye 1) five None [[one]]).
  assert (Hrun : MarginalStudentsT (E:=refEngine) scenario12 [1%Z] None
                 = Ret (Some s1)) by (vm_compute; reflexivity).
  exists s1. split; [exact Hrun|].
  destruct (MarginalStudentsT_commutes (E:=refEngine) scenario12 s1 [1%Z]
              None eq_refl eq_refl Hrun)
    as (m & C & Hm & HC & Hm1 & HC1).
  assert (Hm' : Mean scenario12 None = Ret [one; two])
    by (vm_compute; reflexivity).
  rewrite Hm' in Hm. injection Hm as <-.
  split; [exact Hm1|]. exists C. split; [exact HC|exact HC1].
Defined.

(** X14: [Mean] and [Rand] store their result in place: given a destination
    they overwrite that slice with the value-level result and return the
    same slice, writing to no other cell; given nil they return a slice
    allocated by the call, past every cell of the store. *)
Theorem Mean_and_Rand_reuse_destination
    {Cholesky Source RandState : Type} `{E : Engine Cholesky}
    `{RS : RandSource Source RandState}
    (H : list (obj Cholesky Source)) (s : loc)
    (d : StudentsT Cholesky Source) :
  readDist H s = Some d ->
  (forall l H', hMean s None H = Ret (l, H') ->
     l = length H
     /\ exists m, Mean d None = Ret m /\ H' = H ++ [Floats m])
  /\ (forall dl v0 l H',
     (H !! dl) ≫= asFloats = Some v0 ->
     hMean s (Some dl) H = Ret (l, H') ->
     l = dl /\ exists m, Mean d (Some v0) = Ret m
                         /\ H' = <[dl := Floats m]> H)
  /\ (forall rs l rs' H', hRand s None rs H = Ret ((l, rs'), H') ->
     l = length H
     /\ exists v, Rand d None rs = Ret (v, rs') /\ H' = H ++ [Floats v])
  /\ (forall dl v0 rs l rs' H',
     (H !! dl) ≫= asFloats = Some v0 -> dl ∉ cells H s ->
     hRand s (Some dl) rs H = Ret ((l, rs'), H') ->
     l = dl /\ exists v, Rand d (Some v0) rs = Ret (v, rs')
                         /\ H' = <[dl := Floats v]> H).
Proof.
  intros Hd. destruct (hMean_run H s d Hd) as [HmeanN HmeanS].
  split.
  { intros l H' Hrun. rewrite HmeanN in Hrun.
    destruct (Mean d None) as [m|]; simplify_eq.
    split; [lia|]. by exists m. }
  split.
  { intros dl v0 l H' Hv0 Hrun. rewrite (HmeanS dl v0 Hv0) in Hrun.
    destruct (Mean d (Some v0)) as [m|]; simplify_eq.
    split; [done|]. by exists m. }
  split.
  { intros rs l rs' H' Hrun.
    destruct (hRand_run H s d rs Hd) as [HrandN _]. rewrite HrandN in Hrun.
    destruct (Rand d None rs) as [[v rs1]|]; simplify_eq.
    split; [lia|]. by exists v. }
  intros dl v0 rs l rs' H' Hv0 Hnot Hrun.
  destruct (hRand_run H s d rs Hd) as [_ HrandD].
  rewrite (HrandD dl v0 Hv0 Hnot) in Hrun.
  destruct (Rand d (Some v0) rs) as [[v rs1]|]; simplify_eq.
  split; [done|]. by exists v.
Qed.

Lemma Mean_and_Rand_reuse_destination_witness :
  (exists m, Mean scenario (Some [zero; zero]) = Ret m
     /\ hMean (Cholesky:=Dense) (Source:=unit) 3 (Some 0%nat) builtStore
        = Ret (0%nat, <[0%nat := Floats m]> builtStore))
  /\ (exists m, Mean scenario None = Ret m
     /\ hMean (Cholesky:=Dense) (Source:=unit) 3 None builtStore
        = Ret (length builtStore, builtStore ++ [Floats m])).
Proof.
  assert (Hread : readDist builtStore 3 = Some scenario)
    by (vm_compute; reflexivity).
  assert (HrunS : hMean (Cholesky:=Dense) (Source:=unit) 3 (Some 0%nat)
                    builtStore
                  = Ret (0%nat, <[0%nat := Floats [zero; zero]]> builtStore))
    by (vm_compute; reflexivity).
  assert (HrunN : hMean (Cholesky:=Dense) (Source:=unit) 3 None builtStore
                  = Ret (length builtStore,
                         builtStore ++ [Floats [zero; zero]]))
    by (vm_compute; reflexivity).
  destruct (Mean_and_Rand_reuse_destination (E:=refEngine)
              (RS:=Reference.script) builtStore 3 scenario Hread)
    as (HN & HS & _).
  split.
  - destruct (HS 0%nat [zero; zero] _ _ eq_refl HrunS) as (_ & m & Hm & HH).
    exists m. split; [exact Hm|]. rewrite HrunS. f_equal. f_equal. exact HH.
  - destruct (HN _ _ HrunN) as (_ & m & Hm & HH).
    exists m. split; [exact Hm|]. rewrite HrunN. f_equal. f_equal. exact HH.
Defined.
